(** * The connector entrypoint and the paginated, dependent streams

    A shallow embedding of [base_python/entrypoint.py] (the command
    dispatcher [AirbyteEntrypoint.start], [launch] and [main]) and of the
    stream behaviour exercised by
    [source-amazon-ads/unit_tests/test_streams.py].

    Layout:
    - [Argparse]: the argument parser exactly as [start] configures it
      (lines 50-80), following the algorithm of CPython's [argparse];
    - [Entrypoint]: the dispatcher as a computation in a small
      trace-and-exception monad;
    - [Streams]: the HTTP mock of the unit tests and the paginated and
      dependent streams that run against it;
    - the facts proved about each, after all the definitions. *)

From Stdlib Require Import String Ascii List Bool Arith PeanoNat Lia.
Import ListNotations.
Local Open Scope string_scope.
Local Open Scope list_scope.
Local Open Scope nat_scope.

(* ===================================================================== *)
(** * Argument parsing *)
(* ===================================================================== *)

(** The parser is the one built in lines 50-77 of [start]; the way it
    reads an argument vector is that of CPython's [Lib/argparse.py]
    (read at version 3.11): [parse_args], [_parse_known_args],
    [_parse_optional], [_get_option_tuples], [_get_values] and the
    subparsers action, specialised to the options declared here. A
    string is a sequence of characters with code points below 256; on that
    range the regular expression [\d] of Python matches the ten digits
    [0] to [9] and nothing else. *)
Module Argparse.

(** ** Small string helpers (Python's [str] operations used by argparse) *)

(** [s[0] == '-'] on a non-empty string. *)
Definition starts_with_dash (s : string) : bool :=
  match s with
  | String c _ => Ascii.eqb c "-"
  | EmptyString => false
  end.

(** [s[1] == '-'] (false when the string is shorter). *)
Definition second_is_dash (s : string) : bool :=
  match s with
  | String _ (String c _) => Ascii.eqb c "-"
  | _ => false
  end.

(** [c in s]. *)
Fixpoint contains_char (c : ascii) (s : string) : bool :=
  match s with
  | EmptyString => false
  | String d s' => Ascii.eqb c d || contains_char c s'
  end.

(** [s.split('=', 1)] when ['=' in s]: the text before and after the first
    equals sign. *)
Fixpoint split_eq (s : string) : option (string * string) :=
  match s with
  | EmptyString => None
  | String c s' =>
      if Ascii.eqb c "=" then Some (EmptyString, s')
      else match split_eq s' with
           | Some (l, r) => Some (String c l, r)
           | None => None
           end
  end.

(** [\d] on a character with a code point below 256. *)
Definition is_digit (c : ascii) : bool :=
  let n := nat_of_ascii c in (48 <=? n) && (n <=? 57).

Fixpoint all_digits (s : string) : bool :=
  match s with
  | EmptyString => true
  | String c s' => is_digit c && all_digits s'
  end.

(** [\d*\.\d+] anchored at both ends. *)
Fixpoint digits_dot_digits (s : string) : bool :=
  match s with
  | EmptyString => false
  | String c s' =>
      if Ascii.eqb c "."
      then negb (String.eqb s' EmptyString) && all_digits s'
      else is_digit c && digits_dot_digits s'
  end.

(** Python's [$] also matches just before a newline that ends the string. *)
Fixpoint strip_final_newline (s : string) : string :=
  match s with
  | EmptyString => EmptyString
  | String c EmptyString => if Ascii.eqb c "010" then EmptyString else s
  | String c s' => String c (strip_final_newline s')
  end.

(** [_negative_number_matcher]: the regular expression
    [^-\d+$|^-\d*\.\d+$]. *)
Definition negative_number_like (s : string) : bool :=
  match strip_final_newline s with
  | String c body =>
      Ascii.eqb c "-"
      && ((negb (String.eqb body EmptyString) && all_digits body)
          || digits_dot_digits body)
  | EmptyString => false
  end.

(** ** Actions and parsers *)

(** The three [--config], [--catalog], [--state] destinations. *)
Inductive Dest := DConfig | DCatalog | DState.

(** [-h/--help] (an action with [nargs = 0] that prints the help text and
    exits) and the [store] action of an option taking one string. *)
Inductive Action :=
| ActHelp
| ActStore (d : Dest).

(** [_option_string_actions] of a parser. *)
Definition OptionMap := list (string * Action).

Fixpoint lookup (k : string) (m : OptionMap) : option Action :=
  match m with
  | [] => None
  | (k', a) :: m' => if String.eqb k k' then Some a else lookup k m'
  end.

(** Every parser here is built with the default [add_help=True]. *)
Definition help_options : OptionMap :=
  [("-h", ActHelp); ("--help", ActHelp)].

Record Parser := {
  options : OptionMap;
  required : list Dest
}.

(** [main_parser = argparse.ArgumentParser()]. *)
Definition main_options : OptionMap := help_options.

(** [subparsers.add_parser("spec", ...)]: no argument of its own. *)
Definition spec_parser : Parser :=
  {| options := help_options; required := [] |}.

(** [check_parser]: [--config], required. *)
Definition check_parser : Parser :=
  {| options := help_options ++ [("--config", ActStore DConfig)];
     required := [DConfig] |}.

(** [discover_parser]: [--config], required. *)
Definition discover_parser : Parser :=
  {| options := help_options ++ [("--config", ActStore DConfig)];
     required := [DConfig] |}.

(** [read_parser]: optional [--state], required [--config] and
    [--catalog]. *)
Definition read_parser : Parser :=
  {| options := help_options ++ [("--state", ActStore DState);
                                 ("--config", ActStore DConfig);
                                 ("--catalog", ActStore DCatalog)];
     required := [DConfig; DCatalog] |}.

(** [_name_parser_map] of the [subparsers] action: the accepted choices. *)
Definition name_parser_map : list (string * Parser) :=
  [("spec", spec_parser); ("check", check_parser);
   ("discover", discover_parser); ("read", read_parser)].

Fixpoint find_parser (name : string) (m : list (string * Parser))
  : option Parser :=
  match m with
  | [] => None
  | (k, p) :: m' => if String.eqb name k then Some p else find_parser name m'
  end.

(** ** Classifying one argument string: [_parse_optional] *)

(** An option tuple [(action, option_string, explicit_arg)]; the action is
    [None] for a string that looks like an option this parser lacks. *)
Definition OptionTuple : Type := option Action * string * option string.

Inductive Class :=
| ClsA                       (* 'A': a positional argument *)
| ClsDash                    (* '-': the [--] separator *)
| ClsO (t : OptionTuple).    (* 'O': an option *)

(** [_get_option_tuples]: the options a string abbreviates. *)
Definition get_option_tuples (m : OptionMap) (s : string)
  : list OptionTuple :=
  if second_is_dash s then
    let '(option_prefix, explicit_arg) :=
      match split_eq s with
      | Some (l, r) => (l, Some r)
      | None => (s, None)
      end in
    map (fun ka => (Some (snd ka), fst ka, explicit_arg))
        (filter (fun ka => String.prefix option_prefix (fst ka)) m)
  else
    let short_option_prefix := String.substring 0 2 s in
    let short_explicit_arg := String.substring 2 (String.length s - 2) s in
    flat_map (fun ka : string * Action =>
                if String.eqb (fst ka) short_option_prefix
                then [(Some (snd ka), fst ka, Some short_explicit_arg)]
                else if String.prefix s (fst ka)
                     then [(Some (snd ka), fst ka, None)]
                     else [])
             m.

(** [_parse_optional]: [None] stands for the "ambiguous option" error. *)
Definition parse_optional (m : OptionMap) (s : string) : option Class :=
  if String.eqb s EmptyString then Some ClsA
  else if negb (starts_with_dash s) then Some ClsA
  else match lookup s m with
  | Some a => Some (ClsO (Some a, s, None))
  | None =>
    if String.length s =? 1 then Some ClsA
    else
      let exact_split :=
        match split_eq s with
        | Some (l, r) =>
            match lookup l m with
            | Some a => Some (ClsO (Some a, l, Some r))
            | None => None
            end
        | None => None
        end in
      match exact_split with
      | Some c => Some c
      | None =>
        match get_option_tuples m s with
        | _ :: _ :: _ => None
        | [t] => Some (ClsO t)
        | [] =>
            if negative_number_like s then Some ClsA
            else if contains_char " " s then Some ClsA
            else Some (ClsO (None, s, None))
        end
      end
  end.

(** The first loop of [_parse_known_args]: the pattern of the whole
    argument list. Everything after [--] is a positional argument. *)
Fixpoint classify_all (m : OptionMap) (args : list string)
  : option (list (string * Class)) :=
  match args with
  | [] => Some []
  | s :: rest =>
      if String.eqb s "--"
      then Some ((s, ClsDash) :: map (fun a => (a, ClsA)) rest)
      else match parse_optional m s, classify_all m rest with
           | Some c, Some cs => Some ((s, c) :: cs)
           | _, _ => None
           end
  end.

(** ** Consuming options: [consume_optional] and [take_action] *)

(** A stored option value. [_get_values] removes the first [--] from an
    option's argument strings before converting them, so the explicit
    argument of [--config=--] is stored as the empty list. *)
Inductive Value :=
| VStr (s : string)
| VEmptyList.

Definition get_values (arg_string : string) : Value :=
  if String.eqb arg_string "--" then VEmptyList else VStr arg_string.

(** The [Namespace] returned by [parse_args]; an attribute that was never
    set reads [None]. *)
Record Namespace := {
  command : option string;
  config : option Value;
  catalog : option Value;
  state : option Value
}.

Definition empty_namespace : Namespace :=
  {| command := None; config := None; catalog := None; state := None |}.

(** [setattr(namespace, dest, value)] of the store action. *)
Definition store (d : Dest) (v : Value) (ns : Namespace) : Namespace :=
  match d with
  | DConfig => {| command := command ns; config := Some v;
                  catalog := catalog ns; state := state ns |}
  | DCatalog => {| command := command ns; config := config ns;
                   catalog := Some v; state := state ns |}
  | DState => {| command := command ns; config := config ns;
                 catalog := catalog ns; state := Some v |}
  end.

Definition get (d : Dest) (ns : Namespace) : option Value :=
  match d with
  | DConfig => config ns
  | DCatalog => catalog ns
  | DState => state ns
  end.

(** What [consume_optional] does with the option at the current index. *)
Inductive Consumed :=
| CError                                   (* ArgumentError: usage, exit 2 *)
| CHelp                                    (* the help action runs first *)
| CStore (d : Dest) (v : Value) (took_next : bool)
| CExtra.                                  (* unknown option: kept aside *)

(** The [while True] loop of [consume_optional] for a flag written with an
    explicit argument: a single-dash flag tries to read the argument as
    further single-dash options ([-xyz] for [-x -y -z]); a double-dash flag
    rejects it. The result tells whether every action of the chain was
    resolved; the chain then starts with the flag itself. [next_is_A] says
    whether the argument after this one is a positional string.
    (With an empty explicit argument, as in [-h=], CPython 3.11 reports
    "ignored explicit argument"; older releases fail on [explicit_arg[0]].) *)
Fixpoint flag_chain (m : OptionMap) (option_string explicit_arg : string)
         (next_is_A : bool) {struct explicit_arg} : bool :=
  if second_is_dash option_string then false
  else
    match explicit_arg with
    | EmptyString => false
    | String c new_explicit_arg =>
        let option_string' := String "-" (String c EmptyString) in
        match lookup option_string' m with
        | None => false
        | Some a =>
            match new_explicit_arg, a with
            | EmptyString, ActHelp => true
            | EmptyString, ActStore _ => next_is_A
            | String _ _, ActStore _ => true
            | String _ _, ActHelp =>
                flag_chain m option_string' new_explicit_arg next_is_A
            end
        end
    end.

Definition is_A (next : option (string * Class)) : bool :=
  match next with
  | Some (_, ClsA) => true
  | _ => false
  end.

(** [consume_optional]: [next] is the argument that follows the option.
    An option's [nargs] pattern is [(A)] for a store action and [()] for
    help, so a store action without explicit argument needs the next
    string to be a positional one. *)
Definition consume_optional (m : OptionMap) (t : OptionTuple)
           (next : option (string * Class)) : Consumed :=
  match t with
  | (None, _, _) => CExtra
  | (Some (ActStore d), _, Some explicit_arg) =>
      CStore d (get_values explicit_arg) false
  | (Some ActHelp, option_string, Some explicit_arg) =>
      if flag_chain m option_string explicit_arg (is_A next)
      then CHelp else CError
  | (Some ActHelp, _, None) => CHelp
  | (Some (ActStore d), _, None) =>
      match next with
      | Some (v, ClsA) => CStore d (VStr v) true
      | _ => CError
      end
  end.

(** ** [parse_known_args] of a subparser *)

Inductive Known :=
| KHelp                                        (* print_help(); exit(0) *)
| KError                                       (* error(...): exit(2) *)
| KDone (ns : Namespace) (extras : list string).

(** "the following arguments are required". *)
Definition all_present (req : list Dest) (ns : Namespace) : bool :=
  forallb (fun d => match get d ns with Some _ => true | None => false end)
          req.

(** The subparsers declare no positional argument: every string that is
    not an option, or the value of one, is left over in [extras]. *)
Fixpoint sub_loop (p : Parser) (toks : list (string * Class))
         (ns : Namespace) (extras : list string) : Known :=
  match toks with
  | [] => if all_present (required p) ns then KDone ns extras else KError
  | (s, ClsA) :: rest => sub_loop p rest ns (extras ++ [s])
  | (s, ClsDash) :: rest => sub_loop p rest ns (extras ++ [s])
  | (s, ClsO t) :: rest =>
      match consume_optional (options p) t (hd_error rest) with
      | CError => KError
      | CHelp => KHelp
      | CExtra => sub_loop p rest ns (extras ++ [s])
      | CStore d v false => sub_loop p rest (store d v ns) extras
      | CStore d v true =>
          match rest with
          | _ :: rest' => sub_loop p rest' (store d v ns) extras
          | [] => KError
          end
      end
  end.

Definition sub_parse_known_args (p : Parser) (args : list string) : Known :=
  match classify_all (options p) args with
  | None => KError
  | Some toks => sub_loop p toks empty_namespace []
  end.

(** ** [parse_args] of the main parser *)

Inductive ParseResult :=
| Parsed (ns : Namespace)
| HelpExit                       (* help text on stdout, SystemExit(0) *)
| UsageError.                    (* usage and error on stderr, SystemExit(2) *)

(** The [subparsers] action ([nargs=PARSER], [dest="command"]) applied to
    [values]: the first value must be one of the choices, the others are
    parsed by the chosen subparser. Arguments nobody recognised, before or
    after the command, are an error once the subparser has returned. *)
Definition subparsers_action (values : list string) (extras : list string)
  : ParseResult :=
  match values with
  | [] => UsageError
  | parser_name :: arg_strings =>
      match find_parser parser_name name_parser_map with
      | None => UsageError                         (* invalid choice *)
      | Some p =>
          match sub_parse_known_args p arg_strings with
          | KHelp => HelpExit
          | KError => UsageError
          | KDone ns extras' =>
              match extras ++ extras' with
              | [] => Parsed {| command := Some parser_name;
                                config := config ns;
                                catalog := catalog ns;
                                state := state ns |}
              | _ :: _ => UsageError               (* unrecognized arguments *)
              end
          end
      end
  end.

(** The main loop of [_parse_known_args]: options before the command are
    consumed one by one; the first positional string starts the
    [A[-AO]*] match of the subparsers action, which takes everything that
    is left. The subparsers action is not required, so running out of
    arguments without a command is accepted with [command = None]. *)
Fixpoint main_loop (toks : list (string * Class)) (extras : list string)
  : ParseResult :=
  match toks with
  | [] =>
      match extras with
      | [] => Parsed empty_namespace
      | _ :: _ => UsageError
      end
  | (s, ClsA) :: rest => subparsers_action (s :: map fst rest) extras
  | (s, ClsDash) :: rest =>
      match rest with
      | [] => UsageError                           (* [--] is left over *)
      | _ :: _ => subparsers_action (s :: map fst rest) extras
      end
  | (s, ClsO t) :: rest =>
      match consume_optional main_options t (hd_error rest) with
      | CError => UsageError
      | CHelp => HelpExit
      | CExtra => main_loop rest (extras ++ [s])
      | CStore _ _ _ => UsageError                 (* no such main option *)
      end
  end.

(** [main_parser.parse_args(args)]. *)
Definition parse_args (args : list string) : ParseResult :=
  match classify_all main_options args with
  | None => UsageError
  | Some toks => main_loop toks []
  end.

End Argparse.

(* ===================================================================== *)
(** * The message protocol and the connector interface *)
(* ===================================================================== *)

(** The [airbyte_protocol] models imported by the entrypoint
    ([AirbyteMessage], [Status], [Type]) are not among the sources; they
    are written down from the data model of the specification. *)
Module Protocol.

(** Modelled from the spec: [airbyte_protocol.Status], the outcome of a
    connectivity check. *)
Inductive Status := SUCCEEDED | FAILED.

(** Modelled from the spec: [airbyte_protocol.Type], the tag of a
    message. *)
Inductive Type_ := SPEC | CONNECTION_STATUS | CATALOG | RECORD | STATE | LOG.

(** Modelled from the spec: the payloads the dispatcher passes on without
    looking inside, kept as opaque JSON text. *)
Definition ConnectorSpecification := string.

(** Modelled from the spec: the catalog payload, opaque as well. *)
Definition AirbyteCatalog := string.

(** Modelled from the spec: the result of [Source.check], a status and an
    optional human-readable message. *)
Record AirbyteConnectionStatus := {
  status : Status;
  message : option string
}.

(** Modelled from the spec: [airbyte_protocol.AirbyteMessage], a [type]
    tag and one optional payload field per kind of message. *)
Record AirbyteMessage := {
  type : Type_;
  spec : option ConnectorSpecification;
  connectionStatus : option AirbyteConnectionStatus;
  catalog : option AirbyteCatalog;
  record : option string;
  state : option string;
  log : option string
}.

Definition Status_eqb (a b : Status) : bool :=
  match a, b with
  | SUCCEEDED, SUCCEEDED | FAILED, FAILED => true
  | _, _ => false
  end.

End Protocol.

(** [base_python.integration] ([ConfigContainer], [Source]) is not among
    the sources; the interface is written down from the specification and
    from the calls the entrypoint makes. *)
Module Integration.
Import Protocol.

(** Modelled from the spec: a configuration mapping, opaque to the
    dispatcher. *)
Definition Config := string.

(** What a collaborator can raise: an ordinary exception, named by its
    text, or [SystemExit], the exception of [sys.exit], with the process
    status it asks for. A text stands for the ordinary exception of that
    name. *)
Inductive Failure :=
| Exception (e : string)
| SysExit (code : nat).
Coercion Exception : string >-> Failure.

(** The process status when the failure reaches the top uncaught. *)
Definition failure_status (e : Failure) : nat :=
  match e with
  | Exception _ => 1
  | SysExit code => code
  end.

(** What a call on a collaborator gives: a value, or what it raised. *)
Inductive Result (A : Type) :=
| Ok (a : A)
| Err (e : Failure).                (* what the call raised *)
Arguments Ok {A} a.
Arguments Err {A} e.

(** Modelled from the spec: [ConfigContainer], the raw and the rendered
    configuration with the paths of their files. *)
Record ConfigContainer := {
  raw_config : Config;
  rendered_config : Config;
  raw_config_path : option Argparse.Value;
  rendered_config_path : string
}.

(** Modelled from the spec: the lazy sequence returned by [Source.read];
    each [next()] yields a message, ends the iteration, or raises. *)
Inductive Generator :=
| GStop
| GYield (m : AirbyteMessage) (rest : Generator)
| GRaise (e : Failure).

(** Modelled from the spec: the methods of [Source] that the entrypoint
    calls, with the arguments it passes (the logger is left out). *)
Record Source := {
  spec : Result ConnectorSpecification;
  read_config : option Argparse.Value -> Result Config;
  transform_config : Config -> Result Config;
  write_config : Config -> string -> Result unit;
  check : ConfigContainer -> Result AirbyteConnectionStatus;
  discover : ConfigContainer -> Result AirbyteCatalog;
  read : ConfigContainer -> option Argparse.Value -> option Argparse.Value
         -> Result Generator
}.

(** The messages a generator yields before it stops or raises. *)
Fixpoint yielded (g : Generator) : list AirbyteMessage :=
  match g with
  | GYield m rest => m :: yielded rest
  | _ => []
  end.

(** How the iteration ends: [None] for exhaustion, [Some e] for a raise. *)
Fixpoint ending (g : Generator) : option Failure :=
  match g with
  | GStop => None
  | GYield _ rest => ending rest
  | GRaise e => Some e
  end.

End Integration.

(* ===================================================================== *)
(** * The dispatcher: [AirbyteEntrypoint.start], [launch], [main] *)
(* ===================================================================== *)

Module Entrypoint.
Import Protocol Integration.

(** ** Observable events and the monad of the dispatcher *)

(** The calls the dispatcher makes on its source. *)
Inductive SourceCall :=
| CallSpec
| CallReadConfig (config_path : option Argparse.Value)
| CallTransformConfig
| CallWriteConfig (config_path : string)
| CallCheck
| CallDiscover
| CallRead
| CallNext.                                 (* one step of the [for] loop *)

Inductive Event :=
| ParseArgs (args : list string)            (* main_parser.parse_args(args) *)
| HelpShown                                 (* argparse: help on stdout *)
| UsageShown                                (* argparse: usage on stderr *)
| TempDirCreated (temp_dir : string)        (* TemporaryDirectory.__enter__ *)
| TempDirRemoved (temp_dir : string)        (* TemporaryDirectory.__exit__ *)
| Call (c : SourceCall)
| LogInfo (text : string)                   (* logger.info *)
| LogError (text : string)                  (* logger.error *)
| Stdout (m : AirbyteMessage).    (* print(m.json(exclude_unset=True)) *)

(** The exceptions of the file, one constructor per [raise] statement,
    and whatever comes out of a collaborator, [SystemExit] included: no
    call on the source is wrapped in a handler. *)
Inductive Exn :=
| NoCommandPassed                           (* line 85 *)
| UnexpectedCommand (cmd : string)          (* line 129 *)
| NotASource                                (* line 141 *)
| Propagated (e : Failure).

(** How a piece of code ends: it falls through with a value, it unwinds
    with the [SystemExit(code)] of a [sys.exit] of this file or of
    argparse, or it unwinds with an exception of this file or with what a
    collaborator raised, which is then told apart by [Failure]. *)
Inductive Outcome (A : Type) :=
| Returned (a : A)
| SystemExit (code : nat)
| Raised (e : Exn).
Arguments Returned {A} a.
Arguments SystemExit {A} code.
Arguments Raised {A} e.

(** A computation: the events it performed, in order, and how it ended. *)
Definition M (A : Type) : Type := list Event * Outcome A.

Definition ret {A} (a : A) : M A := ([], Returned a).

Definition bind {A B} (c : M A) (k : A -> M B) : M B :=
  match c with
  | (tr, Returned a) => let '(tr', o) := k a in (tr ++ tr', o)
  | (tr, SystemExit code) => (tr, SystemExit code)
  | (tr, Raised e) => (tr, Raised e)
  end.

Declare Scope entry_scope.
Delimit Scope entry_scope with entry.
Notation "x <- c ;; k" := (bind c (fun x => k))
  (at level 61, c at next level, right associativity) : entry_scope.
Notation "c ;; k" := (bind c (fun _ => k))
  (at level 61, right associativity) : entry_scope.
Local Open Scope entry_scope.

Definition emit (e : Event) : M unit := ([e], Returned tt).

Definition raise {A} (e : Exn) : M A := ([], Raised e).

(** [sys.exit(code)]. *)
Definition sys_exit {A} (code : nat) : M A := ([], SystemExit code).

(** [print(message.json(exclude_unset=True))]: one line on stdout. *)
Definition print (m : AirbyteMessage) : M unit := emit (Stdout m).

(** A call on the source: recorded, then its result or what it raised;
    nothing it raises is caught here, its [SystemExit] no more than its
    other exceptions. *)
Definition call {A} (c : SourceCall) (r : Result A) : M A :=
  match r with
  | Ok a => ([Call c], Returned a)
  | Err e => ([Call c], Raised (Propagated e))
  end.

(** [with tempfile.TemporaryDirectory() as temp_dir: body]: the directory
    is removed when the block is left, however it is left. *)
Definition with_TemporaryDirectory {A} (temp_dir : string)
           (body : string -> M A) : M A :=
  let '(tr, o) := body temp_dir in
  (TempDirCreated temp_dir :: tr ++ [TempDirRemoved temp_dir], o).

(** [main_parser.parse_args(args)] as a computation: the namespace, or
    the exit argparse takes by itself. *)
Definition parse_args_or_exit (args : list string) : M Argparse.Namespace :=
  match Argparse.parse_args args with
  | Argparse.Parsed ns => ([ParseArgs args], Returned ns)
  | Argparse.HelpExit => ([ParseArgs args; HelpShown], SystemExit 0)
  | Argparse.UsageError => ([ParseArgs args; UsageShown], SystemExit 2)
  end.

(** [for message in generator: body]. *)
Fixpoint for_each (generator : Generator) (body : AirbyteMessage -> M unit)
  : M unit :=
  match generator with
  | GStop => emit (Call CallNext)
  | GRaise e => emit (Call CallNext) ;; raise (Propagated e)
  | GYield message rest =>
      emit (Call CallNext) ;; body message ;; for_each rest body
  end.

(** [os.path.join(a, b)] on POSIX paths. *)
Fixpoint ends_with_slash (s : string) : bool :=
  match s with
  | EmptyString => false
  | String c EmptyString => Ascii.eqb c "/"
  | String _ s' => ends_with_slash s'
  end.

Definition os_path_join (a b : string) : string :=
  if String.prefix "/" b then b
  else if String.eqb a EmptyString || ends_with_slash a then a ++ b
  else a ++ "/" ++ b.

(** ** The messages the dispatcher builds *)

Definition spec_message (s : ConnectorSpecification) : AirbyteMessage :=
  {| type := SPEC; Protocol.spec := Some s; connectionStatus := None;
     catalog := None; record := None; state := None; log := None |}.

Definition connection_status_message (c : AirbyteConnectionStatus)
  : AirbyteMessage :=
  {| type := CONNECTION_STATUS; Protocol.spec := None;
     connectionStatus := Some c; catalog := None; record := None;
     state := None; log := None |}.

Definition catalog_message (c : AirbyteCatalog) : AirbyteMessage :=
  {| type := CATALOG; Protocol.spec := None; connectionStatus := None;
     catalog := Some c; record := None; state := None; log := None |}.

(** ** [AirbyteEntrypoint.start] *)

(** The body of the [with] block, lines 90-129. *)
Definition dispatch (source : Source) (parsed_args : Argparse.Namespace)
           (cmd : string) (temp_dir : string) : M unit :=
  if String.eqb cmd "spec" then
    s <- call CallSpec (Integration.spec source) ;;
    print (spec_message s) ;;
    sys_exit 0
  else
    let config_path := Argparse.config parsed_args in
    raw_config <- call (CallReadConfig config_path)
                       (read_config source config_path) ;;
    let rendered_config_path := os_path_join temp_dir "config.json" in
    rendered_config <- call CallTransformConfig
                            (transform_config source raw_config) ;;
    call (CallWriteConfig rendered_config_path)
         (write_config source rendered_config rendered_config_path) ;;
    let config_container :=
      {| raw_config := raw_config;
         rendered_config := rendered_config;
         raw_config_path := config_path;
         rendered_config_path := rendered_config_path |} in
    if String.eqb cmd "check" then
      check_result <- call CallCheck (check source config_container) ;;
      (if Status_eqb (status check_result) SUCCEEDED
       then emit (LogInfo "Check succeeded")
       else emit (LogError "Check failed")) ;;
      print (connection_status_message check_result) ;;
      sys_exit 0
    else if String.eqb cmd "discover" then
      c <- call CallDiscover (discover source config_container) ;;
      print (catalog_message c) ;;
      sys_exit 0
    else if String.eqb cmd "read" then
      generator <- call CallRead
                        (read source config_container
                              (Argparse.catalog parsed_args)
                              (Argparse.state parsed_args)) ;;
      for_each generator print ;;
      sys_exit 0
    else
      raise (UnexpectedCommand cmd).

(** [start(self, args)]; [temp_dir] is the name the operating system gives
    to the temporary directory. *)
Definition start (temp_dir : string) (source : Source) (args : list string)
  : M unit :=
  parsed_args <- parse_args_or_exit args ;;
  match Argparse.command parsed_args with
  | None => raise NoCommandPassed
  | Some cmd =>
      if String.eqb cmd EmptyString then raise NoCommandPassed
      else with_TemporaryDirectory temp_dir (dispatch source parsed_args cmd)
  end.

(** [launch(source, args)]. *)
Definition launch (temp_dir : string) (source : Source) (args : list string)
  : M unit :=
  start temp_dir source args.

(** ** Loading the implementation and [main] *)

(** An object built by [impl()]: whether [isinstance(source, Source)]
    holds, and the methods it answers to. *)
Record Instance := {
  isinstance_Source : bool;
  methods : Source
}.

(** The class [impl]: calling it builds an instance or raises. *)
Definition Impl := Result Instance.

(** Lines 36-39: the environment selects module and class; the defaults
    are the module and name of the base class itself. *)
Definition impl_module (environ : string -> option string) : string :=
  match environ "AIRBYTE_IMPL_MODULE" with
  | Some m => m
  | None => "base_python.integration"
  end.

Definition impl_class (environ : string -> option string) : string :=
  match environ "AIRBYTE_IMPL_PATH" with
  | Some c => c
  | None => "Source"
  end.

(** [getattr(importlib.import_module(impl_module), impl_class)] over the
    importable modules, each a table of attributes. *)
Definition load_impl (environ : string -> option string)
           (modules : string -> option (string -> option Impl))
  : Result Impl :=
  match modules (impl_module environ) with
  | None => Err "ModuleNotFoundError"
  | Some module =>
      match module (impl_class environ) with
      | None => Err "AttributeError"
      | Some impl => Ok impl
      end
  end.

(** [main()]; [argv] is [sys.argv]. *)
Definition main (temp_dir : string) (impl : Impl) (argv : list string)
  : M unit :=
  match impl with
  | Err e => raise (Propagated e)
  | Ok source =>
      if negb (isinstance_Source source) then raise NotASource
      else launch temp_dir (methods source) (tl argv)
  end.

(** ** What the process shows to its caller *)

(** The exit status: [sys.exit(code)] gives [code], whether the dispatcher
    or a collaborator called it; any other uncaught exception gives 1;
    falling off the end gives 0. *)
Definition exit_code {A} (o : Outcome A) : nat :=
  match o with
  | Returned _ => 0
  | SystemExit code => code
  | Raised (Propagated e) => failure_status e
  | Raised _ => 1
  end.

(** The output channel: the messages the dispatcher prints, in order.
    (Log lines are events of their own: what the logger does with them is
    not part of this file.) *)
Fixpoint printed (tr : list Event) : list AirbyteMessage :=
  match tr with
  | [] => []
  | Stdout m :: tr' => m :: printed tr'
  | _ :: tr' => printed tr'
  end.

(** The temporary directories created and not yet removed. *)
Fixpoint live_temp_dirs (tr : list Event) (live : list string)
  : list string :=
  match tr with
  | [] => live
  | TempDirCreated d :: tr' => live_temp_dirs tr' (d :: live)
  | TempDirRemoved d :: tr' =>
      live_temp_dirs tr' (filter (fun x => negb (String.eqb x d)) live)
  | _ :: tr' => live_temp_dirs tr' live
  end.

(** Event classes used in the statements below. *)
Definition is_config_step (e : Event) : bool :=
  match e with
  | Call (CallReadConfig _) | Call CallTransformConfig
  | Call (CallWriteConfig _) => true
  | _ => false
  end.


(** The configuration steps of lines 95-106, when they all succeed. *)
Definition config_steps_succeed (temp_dir : string) (source : Source)
           (ns : Argparse.Namespace) (cc : ConfigContainer) : Prop :=
  read_config source (Argparse.config ns) = Ok (raw_config cc) /\
  transform_config source (raw_config cc) = Ok (rendered_config cc) /\
  write_config source (rendered_config cc)
               (os_path_join temp_dir "config.json") = Ok tt /\
  raw_config_path cc = Argparse.config ns /\
  rendered_config_path cc = os_path_join temp_dir "config.json".

(** The loop asks for an item, prints it, and only then asks for the next
    one: restricted to these two kinds of event, the trace alternates. *)
Definition loop_events (tr : list Event) : list Event :=
  filter (fun e => match e with
                   | Call CallNext | Stdout _ => true
                   | _ => false
                   end) tr.

(** The events that open or close a scratch directory. *)
Definition is_temp_event (e : Event) : bool :=
  match e with
  | TempDirCreated _ | TempDirRemoved _ => true
  | _ => false
  end.

End Entrypoint.

(* ===================================================================== *)
(** * Streams of the Amazon Ads source *)
(* ===================================================================== *)

Module Streams.

(** ** The mocked HTTP endpoints of [test_streams.py] *)

(** A profile as the tests touch it: [profile["accountInfo"]["type"]]. *)
Record Profile := {
  profileId : nat;
  accountInfo_type : string
}.

(** A campaign record, an opaque JSON object. *)
Definition Campaign := string.

(** A request the mock receives. *)
Inductive Request :=
| GetProfiles                                   (* GET /v2/profiles *)
| GetCampaigns (startIndex count : nat).        (* GET /sd/campaigns *)

(** [campaigns_paginated_response_cb]:
    [campaigns[start_index : start_index + count]]. *)
Definition campaigns_paginated_response_cb (campaigns : list Campaign)
           (start_index count : nat) : list Campaign :=
  firstn count (skipn start_index campaigns).

(** [setup_responses(campaigns_response=...)]: the same body whatever the
    query says. *)
Definition static_campaigns_response (campaigns : list Campaign)
           (start_index count : nat) : list Campaign :=
  campaigns.

(** [for profile in profiles_response:
       profile["accountInfo"]["type"] = "vendor"]. *)
Definition make_vendor (p : Profile) : Profile :=
  {| profileId := profileId p; accountInfo_type := "vendor" |}.

(** ** The shared context and the effects of a stream *)

(** Modelled from the spec: what a read can change, namely the context
    shared by the streams of one source ([profile_stream.ctx.profiles] in
    the tests, and whether the upstream records have been cached there
    yet) and the mock's call record ([responses.calls], data requests
    only). *)
Record World := {
  ctx_profiles : list Profile;
  ctx_loaded : bool;
  calls : list Request
}.

(** A read either finishes with a value or runs out of fuel; the world it
    reached is kept in both cases. *)
Definition Fetch (A : Type) : Type := World -> option A * World.

Definition unit_fetch {A} (a : A) : Fetch A := fun w => (Some a, w).

Definition bind_fetch {A B} (c : Fetch A) (k : A -> Fetch B) : Fetch B :=
  fun w =>
    match c w with
    | (Some a, w') => k a w'
    | (None, w') => (None, w')
    end.

Declare Scope stream_scope.
Delimit Scope stream_scope with stream.
Notation "x <- c ;; k" := (bind_fetch c (fun x => k))
  (at level 61, c at next level, right associativity) : stream_scope.
Notation "c ;; k" := (bind_fetch c (fun _ => k))
  (at level 61, right associativity) : stream_scope.
Local Open Scope stream_scope.

Definition out_of_fuel {A} : Fetch A := fun w => (None, w).

(** One HTTP request reaching the mock. *)
Definition request (r : Request) : Fetch unit :=
  fun w => (Some tt, {| ctx_profiles := ctx_profiles w;
                        ctx_loaded := ctx_loaded w;
                        calls := calls w ++ [r] |}).

Definition get_ctx_profiles : Fetch (list Profile) :=
  fun w => (Some (ctx_profiles w), w).

Definition get_ctx_loaded : Fetch bool :=
  fun w => (Some (ctx_loaded w), w).

Definition set_ctx_profiles (ps : list Profile) : Fetch unit :=
  fun w => (Some tt, {| ctx_profiles := ps; ctx_loaded := true;
                        calls := calls w |}).

(** ** The streams *)

(** Modelled from the spec: [source_amazon_ads] (the [Profiles] stream and
    [PaginationStream]) is not among the sources; only its unit tests are.
    The upstream stream performs its network read and caches the records
    in the shared context, unless they are cached there already: then it
    yields the cached records. *)
Definition profiles_read_records (profiles_response : list Profile)
  : Fetch (list Profile) :=
  loaded <- get_ctx_loaded ;;
  if loaded then get_ctx_profiles
  else
    request GetProfiles ;;
    set_ctx_profiles profiles_response ;;
    unit_fetch profiles_response.

(** Modelled from the spec: the page walk of [PaginationStream]. It
    requests pages of [page_size] records at increasing offsets until a
    page comes back with fewer records than the page size; a full page
    never ends the walk. (The mocked API has no other end-of-data signal.)
    [endpoint] is the resource as the server answers it; [fuel] bounds
    the number of requests. *)
Fixpoint read_pages (fuel : nat) (endpoint : nat -> nat -> list Campaign)
         (page_size offset : nat) : Fetch (list Campaign) :=
  match fuel with
  | O => out_of_fuel
  | S fuel' =>
      request (GetCampaigns offset page_size) ;;
      let page := endpoint offset page_size in
      if length page <? page_size then unit_fetch page
      else
        rest <- read_pages fuel' endpoint page_size (offset + page_size) ;;
        unit_fetch (page ++ rest)
  end.

(** Modelled from the spec: a dependent stream. It iterates over the
    cached upstream records that pass its filter and runs one paginated
    sub-extraction per record. *)
Fixpoint read_each (fuel : nat)
         (endpoint : Profile -> nat -> nat -> list Campaign)
         (page_size : nat) (parents : list Profile) : Fetch (list Campaign) :=
  match parents with
  | [] => unit_fetch []
  | p :: parents' =>
      records <- read_pages fuel (endpoint p) page_size 0 ;;
      rest <- read_each fuel endpoint page_size parents' ;;
      unit_fetch (records ++ rest)
  end.

(** Modelled from the spec: what distinguishes one dependent stream from
    another is its filter over upstream records, the resource it reads for
    each of them, and its page size. *)
Record DependentStream := {
  keep : Profile -> bool;                  (* the filter predicate *)
  endpoint : Profile -> nat -> nat -> list Campaign;
  PAGE_SIZE : nat
}.

(** Modelled from the spec: [read_records] of a dependent stream takes
    the upstream records from the shared context, never from the
    network. *)
Definition dependent_read_records (fuel : nat) (s : DependentStream)
  : Fetch (list Campaign) :=
  profiles <- get_ctx_profiles ;;
  read_each fuel (endpoint s) (PAGE_SIZE s) (filter (keep s) profiles).

(** Modelled from the spec: a stream of the source, the upstream stream
    or one of its dependents. *)
Inductive Stream :=
| Upstream
| Dependent (s : DependentStream).

(** Modelled from the spec: [read_records] of a stream, consumed to the
    end; the result is the number of records. *)
Definition read_records (fuel : nat) (profiles_response : list Profile)
           (stream : Stream) : Fetch nat :=
  match stream with
  | Upstream =>
      profiles <- profiles_read_records profiles_response ;;
      unit_fetch (length profiles)
  | Dependent s =>
      records <- dependent_read_records fuel s ;;
      unit_fetch (length records)
  end.

(** Modelled from the spec: one lifetime of a source. Its streams are
    read one after the other, in any order and any number of times; the
    result is the number of records of each read. *)
Fixpoint read_streams (fuel : nat) (profiles_response : list Profile)
         (schedule : list Stream) : Fetch (list nat) :=
  match schedule with
  | [] => unit_fetch []
  | stream :: schedule' =>
      count <- read_records fuel profiles_response stream ;;
      counts <- read_streams fuel profiles_response schedule' ;;
      unit_fetch (count :: counts)
  end.

(** The lifetime of the tests: the upstream stream first, then its
    dependents in declared order. *)
Definition source_read (fuel : nat) (profiles_response : list Profile)
           (dependents : list DependentStream) : Fetch (list nat) :=
  read_streams fuel profiles_response (Upstream :: map Dependent dependents).

(** A freshly built source: nothing cached, nothing requested. *)
Definition fresh : World :=
  {| ctx_profiles := []; ctx_loaded := false; calls := [] |}.

(** The number of network reads of the upstream stream. *)
Definition upstream_reads (w : World) : nat :=
  length (filter (fun r => match r with GetProfiles => true | _ => false end)
                 (calls w)).

(** The number of page requests. *)
Definition page_requests (w : World) : nat :=
  length (filter (fun r => match r with GetCampaigns _ _ => true
                                   | _ => false end)
                 (calls w)).

(** [ceil(a / b)] for [b >= 1]. *)
Definition ceil_div (a b : nat) : nat := (a + b - 1) / b.

(** Modelled from the spec: a filter on the account type, as for the
    sponsored-display campaigns stream of the tests ("we have only one
    vendor account"). *)
Definition is_vendor (p : Profile) : bool :=
  String.eqb (accountInfo_type p) "vendor".

(** The requests of a walk of [n] pages that starts at [offset]. *)
Definition pages_log (page_size offset n : nat) : list Request :=
  map (fun i => GetCampaigns (offset + i * page_size) page_size) (seq 0 n).

End Streams.

(* ===================================================================== *)
(** * Sample collaborators *)
(* ===================================================================== *)

Module Samples.
Import Protocol Integration.

Definition record_message (r : string) : AirbyteMessage :=
  {| type := RECORD; Protocol.spec := None; connectionStatus := None;
     catalog := None; record := Some r; state := None; log := None |}.

Definition unreachable : AirbyteConnectionStatus :=
  {| status := FAILED; message := Some "connection refused" |}.

(** A connector whose credentials are rejected and which has two records
    to read. *)
Definition sample_source : Source :=
  {| Integration.spec := Ok "{connectionSpecification: {}}";
     read_config := fun _ => Ok "{api_key: k}";
     transform_config := fun c => Ok c;
     write_config := fun _ _ => Ok tt;
     check := fun _ => Ok unreachable;
     discover := fun _ => Ok "{streams: []}";
     read := fun _ _ _ =>
       Ok (GYield (record_message "r1") (GYield (record_message "r2") GStop))
  |}.

(** The same connector with a configuration file that cannot be read. *)
Definition unreadable_config_source : Source :=
  {| Integration.spec := Integration.spec sample_source;
     read_config := fun _ => Err "FileNotFoundError";
     transform_config := transform_config sample_source;
     write_config := write_config sample_source;
     check := check sample_source;
     discover := discover sample_source;
     read := read sample_source |}.

(** The same connector on a connection that drops after one record. *)
(** A source whose [spec] ends the process itself, with [sys.exit(code)]. *)
Definition exiting_source (code : nat) : Source :=
  {| Integration.spec := Err (SysExit code);
     read_config := read_config sample_source;
     transform_config := transform_config sample_source;
     write_config := write_config sample_source;
     check := check sample_source;
     discover := discover sample_source;
     read := read sample_source |}.


(** An object that is not a [Source] but answers to the same methods. *)
Definition impostor : Entrypoint.Instance :=
  {| Entrypoint.isinstance_Source := false;
     Entrypoint.methods := sample_source |}.

Definition four_profiles : list Streams.Profile :=
  [ {| Streams.profileId := 1; Streams.accountInfo_type := "seller" |};
    {| Streams.profileId := 2; Streams.accountInfo_type := "vendor" |};
    {| Streams.profileId := 3; Streams.accountInfo_type := "seller" |};
    {| Streams.profileId := 4; Streams.accountInfo_type := "agency" |} ].

Definition four_campaigns : list Streams.Campaign := ["c1"; "c2"; "c3"; "c4"].

(** A source whose generator ends the process itself, with
    [sys.exit(5)], after the first record. *)
Definition quitting_source : Source :=
  {| Integration.spec := Integration.spec sample_source;
     read_config := read_config sample_source;
     transform_config := transform_config sample_source;
     write_config := write_config sample_source;
     check := check sample_source;
     discover := discover sample_source;
     read := fun _ _ _ =>
       Ok (GYield (record_message "r1") (GRaise (SysExit 5))) |}.

(** The sponsored-display campaigns stream against the paginating mock. *)
Definition campaigns_stream (page_size : nat) : Streams.DependentStream :=
  {| Streams.keep := Streams.is_vendor;
     Streams.endpoint :=
       fun _ => Streams.campaigns_paginated_response_cb four_campaigns;
     Streams.PAGE_SIZE := page_size |}.

(** The same stream against the static mock of [setup_responses], which
    answers every request with the whole list; the page size is the one
    the connector ships with. *)
Definition static_campaigns_stream : Streams.DependentStream :=
  {| Streams.keep := Streams.is_vendor;
     Streams.endpoint :=
       fun _ => Streams.static_campaigns_response four_campaigns;
     Streams.PAGE_SIZE := 100 |}.

End Samples.

(* ===================================================================== *)
(** * Vocabulary of the statements *)
(* ===================================================================== *)

Module Vocabulary.
Import Argparse.

(** The four subcommands. *)
Definition choices : list string := ["spec"; "check"; "discover"; "read"].

(** The part of an argument before its first equals sign. *)
Definition option_prefix (s : string) : string :=
  match split_eq s with
  | Some (l, _) => l
  | None => s
  end.

(** The argument [s] may stand for the option string [k]: it begins with
    a dash and is [k] itself or, being neither the lone dash (a positional
    argument) nor the separator [--], is [k=value], an abbreviation of [k]
    (with or without [=value]), or, for a one-letter option, a string that
    begins with it. Every argument that argparse resolves to [k] passes
    this test. *)
Definition names (k s : string) : bool :=
  starts_with_dash s
  && (String.eqb s k
      || (negb (String.eqb s "-") && negb (String.eqb s "--")
          && (String.prefix (option_prefix s) k
              || String.eqb k (String.substring 0 2 s)
              || String.prefix s k))).

(** The option string of each destination. *)
Definition flag (d : Dest) : string :=
  match d with
  | DConfig => "--config"
  | DCatalog => "--catalog"
  | DState => "--state"
  end.

Definition Dest_eqb (a b : Dest) : bool :=
  match a, b with
  | DConfig, DConfig | DCatalog, DCatalog | DState, DState => true
  | _, _ => false
  end.

(** Parser [m] sees option [d] in [args]: some argument before the first
    [--] separator is resolved by [_parse_optional] to the store action of
    [d]. An ambiguous abbreviation resolves to nothing, and so does every
    argument behind the separator. *)
Fixpoint sees_flag (m : OptionMap) (d : Dest) (args : list string) : bool :=
  match args with
  | [] => false
  | s :: rest =>
      if String.eqb s "--" then false
      else match parse_optional m s with
           | Some (ClsO (Some (ActStore d'), _, _)) =>
               Dest_eqb d d' || sees_flag m d rest
           | _ => sees_flag m d rest
           end
  end.

(** The argument vectors without a subcommand, with an unrecognized
    subcommand, or without a required flag of their subcommand:
    - nothing at all on the command line;
    - a first word that is not one of the four subcommands, be it a
      word that is no subcommand or an option put where the subcommand
      belongs;
    - a subcommand whose parser sees one of its required flags nowhere
      in the arguments that follow. *)
Inductive rejected : list string -> Prop :=
| NoArguments : rejected []
| NotASubcommand a rest :
    ~ In a choices ->
    rejected (a :: rest)
| MissingRequiredFlag c p d rest :
    find_parser c name_parser_map = Some p ->
    In d (required p) ->
    sees_flag (options p) d rest = false ->
    rejected (c :: rest).


End Vocabulary.

(* ===================================================================== *)
(** * Facts about the argument parser *)
(* ===================================================================== *)

Module ArgparseFacts.
Import Argparse Vocabulary.

Lemma prefix_refl s : String.prefix s s = true.
Proof.
  induction s as [|c s IH]; simpl; [reflexivity|].
  destruct (ascii_dec c c); [exact IH|congruence].
Qed.

Lemma lookup_In k m a : lookup k m = Some a -> In (k, a) m.
Proof.
  induction m as [|[k' a'] m IH]; simpl; [discriminate|].
  destruct (String.eqb_spec k k') as [->|_].
  - intros [= ->]. now left.
  - intros H. right. auto.
Qed.

(** An argument is classified as a known option only if it names it. *)
Lemma parse_optional_names m s a os e :
  String.eqb s "--" = false ->
  parse_optional m s = Some (ClsO (Some a, os, e)) ->
  In (os, a) m /\ names os s = true.
Proof.
  intros Hsep. unfold parse_optional, names.
  destruct (String.eqb s EmptyString); [discriminate|].
  destruct (starts_with_dash s); cbn [negb andb]; [|discriminate].
  destruct (lookup s m) as [a0|] eqn:Hl.
  { intros [= <- <- <-]. split; [now apply lookup_In|].
    now rewrite String.eqb_refl. }
  destruct (String.length s =? 1) eqn:Hlen; [discriminate|].
  assert (Hone : String.eqb s "-" = false).
  { destruct (String.eqb_spec s "-") as [->|]; [discriminate|reflexivity]. }
  rewrite Hone, Hsep. cbn [negb andb].
  assert (Hsplit :
    match split_eq s with
    | Some (l, r) =>
        match lookup l m with
        | Some a1 => Some (ClsO (Some a1, l, Some r))
        | None => None
        end
    | None => None
    end = Some (ClsO (Some a, os, e)) ->
    In (os, a) m /\
    String.eqb s os
    || (String.prefix (option_prefix s) os
        || String.eqb os (String.substring 0 2 s) || String.prefix s os)
    = true).
  { unfold option_prefix.
    destruct (split_eq s) as [[l r]|]; [|discriminate].
    destruct (lookup l m) as [a1|] eqn:Hl1; [|discriminate].
    intros [= <- <- <-]. split; [now apply lookup_In|].
    rewrite prefix_refl. now rewrite ?orb_true_r. }
  destruct (match split_eq s with
            | Some (l, r) =>
                match lookup l m with
                | Some a1 => Some (ClsO (Some a1, l, Some r))
                | None => None
                end
            | None => None
            end) as [c|] eqn:Hex.
  { intros [= ->]. now apply Hsplit. }
  clear Hsplit Hex.
  destruct (get_option_tuples m s) as [|t [|t' ts]] eqn:Ht.
  - destruct (negative_number_like s); [discriminate|].
    destruct (contains_char " " s); discriminate.
  - intros [= ->].
    assert (Hin : In (Some a, os, e) (get_option_tuples m s))
      by (rewrite Ht; now left).
    clear Ht. unfold get_option_tuples in Hin.
    destruct (second_is_dash s).
    + unfold option_prefix.
      destruct (split_eq s) as [[l r]|];
        apply in_map_iff in Hin as ([k a'] & [= <- <- <-] & Hf);
        apply filter_In in Hf as [Hm Hp]; simpl in *;
        (split; [exact Hm|]); rewrite Hp; now rewrite ?orb_true_r.
    + apply in_flat_map in Hin as ([k a'] & Hm & Hin). simpl in Hin.
      destruct (String.eqb_spec k (String.substring 0 2 s)) as [Hk|_].
      * destruct Hin as [[= <- <- <-]|[]]. split; [exact Hm|].
        rewrite <- Hk, String.eqb_refl. now rewrite ?orb_true_r.
      * destruct (String.prefix s k) eqn:Hp; [|destruct Hin].
        destruct Hin as [[= <- <- <-]|[]]. split; [exact Hm|].
        rewrite Hp. now rewrite ?orb_true_r.
  - discriminate.
Qed.

(** The classified list spells the argument list, and each option in it
    was classified by [parse_optional]. *)
Lemma classify_all_fst m args toks :
  classify_all m args = Some toks -> map fst toks = args.
Proof.
  revert toks. induction args as [|s rest IH]; simpl; intros toks.
  - now intros [= <-].
  - destruct (String.eqb s "--").
    + intros [= <-]. simpl. f_equal. rewrite map_map. simpl. apply map_id.
    + destruct (parse_optional m s) as [c|]; [|discriminate].
      destruct (classify_all m rest) as [cs|]; [|discriminate].
      intros [= <-]. simpl. f_equal. now apply IH.
Qed.

Lemma classify_all_options m args toks s t :
  classify_all m args = Some toks ->
  In (s, ClsO t) toks ->
  In s args /\ String.eqb s "--" = false /\
  parse_optional m s = Some (ClsO t).
Proof.
  revert toks. induction args as [|s0 rest IH]; simpl; intros toks.
  - intros [= <-] [].
  - destruct (String.eqb s0 "--") eqn:Hsep.
    + intros [= <-] [H|H]; [discriminate|].
      apply in_map_iff in H as (x & [=] & _).
    + destruct (parse_optional m s0) as [c|] eqn:Hc; [|discriminate].
      destruct (classify_all m rest) as [cs|]; [|discriminate].
      intros [= <-] [[= <- <-]|H].
      * split; [now left|split; [exact Hsep|exact Hc]].
      * destruct (IH cs eq_refl H) as (Hin & Hs & Hp).
        split; [now right|split; [exact Hs|exact Hp]].
Qed.


(** ** A required option that no argument names *)

Lemma get_store_other d d' v ns :
  d <> d' -> get d (store d' v ns) = get d ns.
Proof. destruct d, d'; simpl; congruence. Qed.


(** The option strings of the three parsers that take a configuration. *)
Lemma subparser_options c p k a :
  find_parser c name_parser_map = Some p ->
  In (k, a) (options p) ->
  match a with
  | ActHelp => k = "-h" \/ k = "--help"
  | ActStore d => k = flag d
  end.
Proof.
  unfold name_parser_map, find_parser.
  repeat match goal with
         | |- context [String.eqb c ?x] => destruct (String.eqb c x)
         end;
    intros [= <-]; simpl; intros H;
    repeat (destruct H as [H|H]; [inversion H; subst; simpl; now auto|]);
    contradiction.
Qed.

Lemma chosen_is_positional c p :
  find_parser c name_parser_map = Some p ->
  String.eqb c "--" = false /\ parse_optional main_options c = Some ClsA.
Proof.
  unfold name_parser_map, find_parser.
  repeat match goal with
         | |- context [String.eqb c ?x] =>
             destruct (String.eqb_spec c x) as [->|?]
         end; intros [= <-]; split; reflexivity.
Qed.

(** An option that no argument names is not seen. *)
Lemma unnamed_unseen c p d rest :
  find_parser c name_parser_map = Some p ->
  (forall s, In s rest -> names (flag d) s = false) ->
  sees_flag (options p) d rest = false.
Proof.
  intros Hp. induction rest as [|s rest IH]; intros Hnames; [reflexivity|].
  assert (IH' : sees_flag (options p) d rest = false).
  { apply IH. intros s' Hs'. apply Hnames. now right. }
  cbn [sees_flag].
  destruct (String.eqb s "--") eqn:Hsep; [reflexivity|].
  destruct (parse_optional (options p) s)
    as [[| |[[[[|d']|] os] e]]|] eqn:Hpo; try exact IH'.
  rewrite IH', orb_false_r.
  destruct (parse_optional_names _ _ _ _ _ Hsep Hpo) as [Hm Hn].
  pose proof (subparser_options c p os _ Hp Hm) as Hk. simpl in Hk.
  subst os. destruct d, d'; try reflexivity;
    rewrite (Hnames s (or_introl eq_refl)) in Hn; discriminate.
Qed.

Lemma find_parser_choices c :
  In c choices <-> exists p, find_parser c name_parser_map = Some p.
Proof.
  unfold choices, name_parser_map, find_parser. split.
  - simpl. intros [<-|[<-|[<-|[<-|[]]]]]; eexists; reflexivity.
  - intros [p H]. simpl.
    repeat match type of H with
           | context [String.eqb c ?x] =>
               destruct (String.eqb_spec c x) as [->|?]; [now auto 6|]
           end.
    discriminate.
Qed.

(** ** What an accepted argument vector looks like *)

Lemma subparsers_action_command values extras ns :
  subparsers_action values extras = Parsed ns ->
  exists c, command ns = Some c /\ In c choices.
Proof.
  unfold subparsers_action. destruct values as [|c args]; [discriminate|].
  destruct (find_parser c name_parser_map) as [p|] eqn:Hp; [|discriminate].
  destruct (sub_parse_known_args p args) as [| |ns' extras'];
    try discriminate.
  destruct (extras ++ extras'); [|discriminate].
  intros [= <-]. exists c. split; [reflexivity|].
  apply find_parser_choices. now exists p.
Qed.

Lemma main_loop_command toks extras ns :
  main_loop toks extras = Parsed ns ->
  (command ns = None /\ toks = [] /\ extras = [])
  \/ exists c, command ns = Some c /\ In c choices.
Proof.
  revert extras.
  induction toks as [|[s c] rest IH]; intros extras; cbn [main_loop].
  - destruct extras; [|discriminate]. intros [= <-]. left. auto.
  - destruct c as [| |t].
    + intros H. right. eapply subparsers_action_command; eassumption.
    + destruct rest; [discriminate|].
      intros H. right. eapply subparsers_action_command; eassumption.
    + destruct (consume_optional main_options t (hd_error rest));
        try discriminate.
      intros H. destruct (IH _ H) as [(_ & _ & Hex)|Hc]; [|now right].
      destruct extras; discriminate.
Qed.

(** The parser accepts a missing command, and only for the empty
    argument vector; otherwise the command is one of the four choices. *)
Lemma parse_args_command args ns :
  parse_args args = Parsed ns ->
  (command ns = None /\ args = [])
  \/ exists c, command ns = Some c /\ In c choices.
Proof.
  unfold parse_args.
  destruct (classify_all main_options args) as [toks|] eqn:Hc;
    [|discriminate].
  intros H. destruct (main_loop_command _ _ _ H) as [(Hn & -> & _)|Hs].
  - left. split; [exact Hn|].
    apply classify_all_fst in Hc. now simpl in Hc.
  - now right.
Qed.

(** ** The [spec] subcommand takes no argument *)

Lemma subparsers_action_parsed s values extras ns c :
  subparsers_action (s :: values) extras = Parsed ns ->
  command ns = Some c ->
  extras = [] /\ s = c.
Proof.
  unfold subparsers_action.
  destruct (find_parser s name_parser_map); [|discriminate].
  destruct (sub_parse_known_args _ _) as [| |ns' extras'];
    try discriminate.
  destruct (extras ++ extras') eqn:He; [|discriminate].
  intros [= <-] Hc. simpl in Hc. apply app_eq_nil in He as [-> _].
  split; congruence.
Qed.

Lemma main_loop_parsed_command toks extras ns c :
  main_loop toks extras = Parsed ns ->
  command ns = Some c ->
  extras = [] /\
  exists cl rest, toks = (c, cl) :: rest /\
                  subparsers_action (c :: map fst rest) [] = Parsed ns.
Proof.
  revert extras.
  induction toks as [|[s cl] rest IH]; intros extras; cbn [main_loop].
  - destruct extras; [|discriminate]. intros [= <-]. discriminate.
  - destruct cl as [| |t].
    + intros H Hc.
      destruct (subparsers_action_parsed _ _ _ _ _ H Hc) as [-> ->].
      split; [reflexivity|]. now exists ClsA, rest.
    + destruct rest as [|tok rest]; [discriminate|].
      intros H Hc.
      destruct (subparsers_action_parsed _ _ _ _ _ H Hc) as [-> ->].
      split; [reflexivity|]. now exists ClsDash, (tok :: rest).
    + destruct (consume_optional main_options t (hd_error rest));
        try discriminate.
      intros H Hc. destruct (IH _ H Hc) as [Hex _].
      destruct extras; discriminate.
Qed.

Lemma sub_loop_spec_parser toks :
  forall ns extras ns' extras',
    Forall (fun tok => forall d os e,
                snd tok <> ClsO (Some (ActStore d), os, e)) toks ->
    sub_loop spec_parser toks ns extras = KDone ns' extras' ->
    ns' = ns /\ extras' = extras ++ map fst toks.
Proof.
  induction toks as [|[s cl] rest IH]; intros ns extras ns' extras' Hall;
    cbn [sub_loop].
  - simpl. intros [= <- <-]. now rewrite app_nil_r.
  - inversion Hall as [|? ? Hhd Htl]; subst. simpl in Hhd.
    assert (Hext : forall ex, (ex ++ [s]) ++ map fst rest
                              = ex ++ map fst ((s, cl) :: rest)).
    { intros ex. now rewrite <- app_assoc. }
    destruct cl as [| |[[[[|d]|] os] e]].
    + intros H. destruct (IH _ _ _ _ Htl H) as [-> ->]. now rewrite Hext.
    + intros H. destruct (IH _ _ _ _ Htl H) as [-> ->]. now rewrite Hext.
    + unfold consume_optional. destruct e as [explicit_arg|];
        [destruct (flag_chain _ _ _ _)|]; discriminate.
    + exfalso. now apply (Hhd d os e).
    + cbn [consume_optional].
      intros H. destruct (IH _ _ _ _ Htl H) as [-> ->]. now rewrite Hext.
Qed.

(** The only argument vector that selects [spec] is [spec] alone: the
    command cannot even be given a configuration file. *)
Lemma spec_takes_no_argument args ns :
  parse_args args = Parsed ns ->
  command ns = Some "spec" ->
  args = ["spec"] /\ config ns = None.
Proof.
  unfold parse_args.
  destruct (classify_all main_options args) as [toks|] eqn:Hc;
    [|discriminate].
  intros H Hcmd.
  destruct (main_loop_parsed_command _ _ _ _ H Hcmd)
    as (_ & cl & rest & -> & Hsub).
  apply classify_all_fst in Hc. simpl in Hc. subst args.
  revert Hsub. unfold subparsers_action. simpl find_parser. cbv iota.
  unfold sub_parse_known_args. simpl options.
  destruct (classify_all help_options (map fst rest)) as [toks|] eqn:Ht;
    [|discriminate].
  destruct (sub_loop spec_parser toks empty_namespace []) as [| |ns' ex]
    eqn:Hloop; try discriminate.
  apply sub_loop_spec_parser in Hloop as [-> Hex].
  - simpl in Hex. subst ex.
    destruct (map fst toks) eqn:Hm; [|discriminate].
    intros [= <-]. split; [|reflexivity].
    apply classify_all_fst in Ht. rewrite Hm in Ht. now rewrite <- Ht.
  - apply Forall_forall. intros [s cl'] Hin d os e Heq. simpl in Heq.
    subst cl'.
    destruct (classify_all_options _ _ _ _ _ Ht Hin) as (_ & Hsep & Hpo).
    destruct (parse_optional_names _ _ _ _ _ Hsep Hpo) as [Hm _].
    simpl in Hm. intuition discriminate.
Qed.


(** ** Running the parser *)

Example parse_spec :
  parse_args ["spec"]
  = Parsed {| command := Some "spec"; config := None;
              catalog := None; state := None |}.
Proof. reflexivity. Qed.

Example parse_check :
  parse_args ["check"; "--config"; "secrets/config.json"]
  = Parsed {| command := Some "check";
              config := Some (VStr "secrets/config.json");
              catalog := None; state := None |}.
Proof. reflexivity. Qed.

Example parse_read_abbreviated :
  parse_args ["read"; "--co=c.json"; "--cat"; "cat.json"; "--state"; "s.json"]
  = Parsed {| command := Some "read"; config := Some (VStr "c.json");
              catalog := Some (VStr "cat.json");
              state := Some (VStr "s.json") |}.
Proof. reflexivity. Qed.

Example parse_read_ambiguous :
  parse_args ["read"; "--c"; "c.json"; "--catalog"; "cat.json"] = UsageError.
Proof. reflexivity. Qed.

Example parse_help : parse_args ["check"; "-h"] = HelpExit.
Proof. reflexivity. Qed.

Example parse_nothing : parse_args [] = Parsed empty_namespace.
Proof. reflexivity. Qed.

Example parse_unknown_command :
  parse_args ["sync"; "--config"; "c.json"] = UsageError.
Proof. reflexivity. Qed.

Example parse_spec_with_config :
  parse_args ["spec"; "--config"; "c.json"] = UsageError.
Proof. reflexivity. Qed.

Example parse_check_without_config :
  parse_args ["check"; "--verbose"; "c.json"] = UsageError.
Proof. reflexivity. Qed.

End ArgparseFacts.


(* ===================================================================== *)
(** * Facts about the dispatcher *)
(* ===================================================================== *)

Module EntrypointFacts.
Import Protocol Integration Entrypoint.
Local Open Scope entry_scope.

(** ** Unfolding [start] *)

Lemma start_dispatches temp_dir source args ns cmd :
  Argparse.parse_args args = Argparse.Parsed ns ->
  Argparse.command ns = Some cmd ->
  cmd <> EmptyString ->
  start temp_dir source args
  = (ParseArgs args :: TempDirCreated temp_dir
       :: fst (dispatch source ns cmd temp_dir) ++ [TempDirRemoved temp_dir],
     snd (dispatch source ns cmd temp_dir)).
Proof.
  intros Hparse Hcmd Hne.
  unfold start, parse_args_or_exit, bind. rewrite Hparse, Hcmd.
  destruct (String.eqb_spec cmd EmptyString) as [->|_]; [congruence|].
  unfold with_TemporaryDirectory.
  destruct (dispatch source ns cmd temp_dir) as [tr o]. reflexivity.
Qed.

(** ** The [for] loop of [read] *)

Lemma for_each_print_printed g :
  printed (fst (for_each g print)) = yielded g.
Proof.
  induction g as [|m rest IH|e]; simpl; try reflexivity.
  destruct (for_each rest print) as [tr o]. simpl in *.
  destruct o; simpl; now rewrite IH.
Qed.

Lemma printed_app tr1 tr2 : printed (tr1 ++ tr2) = printed tr1 ++ printed tr2.
Proof.
  induction tr1 as [|e tr1 IH]; simpl; [reflexivity|].
  destruct e; simpl; now rewrite ?IH.
Qed.

Lemma for_each_print_alternates g :
  loop_events (fst (for_each g print))
  = flat_map (fun m => [Call CallNext; Stdout m]) (yielded g)
    ++ [Call CallNext].
Proof.
  induction g as [|m rest IH|e]; simpl; try reflexivity.
  destruct (for_each rest print) as [tr o]. simpl in *.
  destruct o; simpl; now rewrite IH.
Qed.

Lemma for_each_print_outcome g :
  snd (for_each g print)
  = match ending g with
    | None => Returned tt
    | Some e => Raised (Propagated e)
    end.
Proof.
  induction g as [|m rest IH|e]; simpl; try reflexivity.
  destruct (for_each rest print) as [tr o]. simpl in *.
  rewrite <- IH. destruct o; reflexivity.
Qed.

(** ** The commands *)

(** C1. The [check] command exits with code 0 whether the connectivity
    check succeeds or fails. Whenever [Source.check] returns a status
    (so the configuration was loaded, transformed and written), the run
    ends in [sys.exit(0)], not in an exception, and the dispatcher prints
    exactly one message: the CONNECTION_STATUS message carrying that
    status. With status FAILED the run is: the configuration steps, the
    check, the log line "Check failed", that one message with status
    FAILED, the removal of the scratch directory; the exit code is still
    0, so the failure shows only in the payload. *)
Theorem check_exits_zero temp_dir source args ns cc check_result :
  Argparse.parse_args args = Argparse.Parsed ns ->
  Argparse.command ns = Some "check" ->
  config_steps_succeed temp_dir source ns cc ->
  check source cc = Ok check_result ->
  snd (start temp_dir source args) = SystemExit 0 /\
  exit_code (snd (start temp_dir source args)) = 0 /\
  printed (fst (start temp_dir source args))
  = [connection_status_message check_result] /\
  (status check_result = FAILED ->
   fst (start temp_dir source args)
   = [ParseArgs args; TempDirCreated temp_dir;
      Call (CallReadConfig (Argparse.config ns)); Call CallTransformConfig;
      Call (CallWriteConfig (os_path_join temp_dir "config.json"));
      Call CallCheck; LogError "Check failed";
      Stdout (connection_status_message check_result);
      TempDirRemoved temp_dir] /\
   exists m, printed (fst (start temp_dir source args)) = [m] /\
             type m = CONNECTION_STATUS /\
             option_map status (connectionStatus m) = Some FAILED).
Proof.
  intros Hparse Hcmd (Hread & Htrans & Hwrite & Hrawp & Hrendp) Hcheck.
  rewrite (start_dispatches _ _ _ _ _ Hparse Hcmd) by discriminate.
  assert (Hcc : {| raw_config := raw_config cc;
                   rendered_config := rendered_config cc;
                   raw_config_path := Argparse.config ns;
                   rendered_config_path :=
                     os_path_join temp_dir "config.json" |} = cc).
  { destruct cc; simpl in *; congruence. }
  unfold dispatch. simpl String.eqb. cbv iota.
  rewrite Hread. cbn [call bind]. rewrite Htrans. cbn [call bind].
  rewrite Hwrite. cbn [call bind]. rewrite Hcc, Hcheck. cbn [call bind].
  destruct (status check_result) eqn:Hs;
    cbn [Status_eqb emit print sys_exit bind fst snd app exit_code];
    repeat split; try reflexivity; try discriminate.
  eexists. repeat split. simpl. now rewrite Hs.
Qed.

(** A witness for C1: the credentials of the sample connector are
    rejected, and [check] still exits 0. *)
Lemma check_exits_zero_witness :
  snd (start "/tmp/tmpq1" Samples.sample_source
             ["check"; "--config"; "secrets/config.json"]) = SystemExit 0 /\
  exit_code (snd (start "/tmp/tmpq1" Samples.sample_source
                        ["check"; "--config"; "secrets/config.json"])) = 0 /\
  printed (fst (start "/tmp/tmpq1" Samples.sample_source
                      ["check"; "--config"; "secrets/config.json"]))
  = [connection_status_message Samples.unreachable] /\
  (status Samples.unreachable = FAILED ->
   fst (start "/tmp/tmpq1" Samples.sample_source
              ["check"; "--config"; "secrets/config.json"])
   = [ParseArgs ["check"; "--config"; "secrets/config.json"];
      TempDirCreated "/tmp/tmpq1";
      Call (CallReadConfig (Some (Argparse.VStr "secrets/config.json")));
      Call CallTransformConfig;
      Call (CallWriteConfig "/tmp/tmpq1/config.json");
      Call CallCheck; LogError "Check failed";
      Stdout (connection_status_message Samples.unreachable);
      TempDirRemoved "/tmp/tmpq1"] /\
   exists m, printed (fst (start "/tmp/tmpq1" Samples.sample_source
                                 ["check"; "--config"; "secrets/config.json"]))
             = [m] /\
             type m = CONNECTION_STATUS /\
             option_map status (connectionStatus m) = Some FAILED).
Proof.
  apply (check_exits_zero "/tmp/tmpq1" Samples.sample_source
           ["check"; "--config"; "secrets/config.json"]
           {| Argparse.command := Some "check";
              Argparse.config := Some (Argparse.VStr "secrets/config.json");
              Argparse.catalog := None; Argparse.state := None |}
           {| raw_config := "{api_key: k}";
              rendered_config := "{api_key: k}";
              raw_config_path := Some (Argparse.VStr "secrets/config.json");
              rendered_config_path := "/tmp/tmpq1/config.json" |}).
  - reflexivity.
  - reflexivity.
  - repeat split.
  - reflexivity.
Defined.

Lemma loop_events_app tr1 tr2 :
  loop_events (tr1 ++ tr2) = loop_events tr1 ++ loop_events tr2.
Proof. apply filter_app. Qed.

(** C5. The [read] command writes one line per item the generator
    produces, in the order of production, each right after the item was
    produced and before the next one is asked for, and exits with code 0
    once the generator is exhausted. *)
Theorem read_prints_each_item temp_dir source args ns cc generator :
  Argparse.parse_args args = Argparse.Parsed ns ->
  Argparse.command ns = Some "read" ->
  config_steps_succeed temp_dir source ns cc ->
  read source cc (Argparse.catalog ns) (Argparse.state ns) = Ok generator ->
  printed (fst (start temp_dir source args)) = yielded generator /\
  loop_events (fst (start temp_dir source args))
  = flat_map (fun m => [Call CallNext; Stdout m]) (yielded generator)
    ++ [Call CallNext] /\
  (ending generator = None ->
   snd (start temp_dir source args) = SystemExit 0 /\
   exit_code (snd (start temp_dir source args)) = 0).
Proof.
  intros Hparse Hcmd (Hread & Htrans & Hwrite & Hrawp & Hrendp) Hgen.
  rewrite (start_dispatches _ _ _ _ _ Hparse Hcmd) by discriminate.
  assert (Hcc : {| raw_config := raw_config cc;
                   rendered_config := rendered_config cc;
                   raw_config_path := Argparse.config ns;
                   rendered_config_path :=
                     os_path_join temp_dir "config.json" |} = cc).
  { destruct cc; simpl in *; congruence. }
  unfold dispatch. simpl String.eqb. cbv iota.
  rewrite Hread. cbn [call bind]. rewrite Htrans. cbn [call bind].
  rewrite Hwrite. cbn [call bind]. rewrite Hcc, Hgen. cbn [call bind].
  pose proof (for_each_print_printed generator) as Hp.
  pose proof (for_each_print_alternates generator) as Ha.
  pose proof (for_each_print_outcome generator) as Ho.
  destruct (for_each generator print) as [tr o]. simpl in Hp, Ha, Ho.
  split; [|split].
  - destruct o; cbn [sys_exit bind fst snd app printed];
      rewrite ?app_nil_r, printed_app; simpl; now rewrite Hp, app_nil_r.
  - destruct o; cbn [sys_exit bind fst snd app loop_events filter];
      rewrite ?app_nil_r; fold (loop_events (tr ++ [TempDirRemoved temp_dir]));
      rewrite loop_events_app; simpl; now rewrite Ha, app_nil_r.
  - intros Hend. rewrite Hend in Ho. subst o. split; reflexivity.
Qed.

(** A witness for C5: the two records of the sample connector. *)
Lemma read_prints_each_item_witness :
  printed (fst (start "/tmp/tmpq1" Samples.sample_source
                      ["read"; "--config"; "c.json"; "--catalog"; "cat.json"]))
  = [Samples.record_message "r1"; Samples.record_message "r2"] /\
  loop_events (fst (start "/tmp/tmpq1" Samples.sample_source
                      ["read"; "--config"; "c.json"; "--catalog"; "cat.json"]))
  = [Call CallNext; Stdout (Samples.record_message "r1");
     Call CallNext; Stdout (Samples.record_message "r2"); Call CallNext] /\
  (ending (GYield (Samples.record_message "r1")
                  (GYield (Samples.record_message "r2") GStop)) = None ->
   snd (start "/tmp/tmpq1" Samples.sample_source
              ["read"; "--config"; "c.json"; "--catalog"; "cat.json"])
   = SystemExit 0 /\
   exit_code (snd (start "/tmp/tmpq1" Samples.sample_source
                         ["read"; "--config"; "c.json";
                          "--catalog"; "cat.json"])) = 0).
Proof.
  apply (read_prints_each_item "/tmp/tmpq1" Samples.sample_source
           ["read"; "--config"; "c.json"; "--catalog"; "cat.json"]
           {| Argparse.command := Some "read";
              Argparse.config := Some (Argparse.VStr "c.json");
              Argparse.catalog := Some (Argparse.VStr "cat.json");
              Argparse.state := None |}
           {| raw_config := "{api_key: k}";
              rendered_config := "{api_key: k}";
              raw_config_path := Some (Argparse.VStr "c.json");
              rendered_config_path := "/tmp/tmpq1/config.json" |}
           (GYield (Samples.record_message "r1")
                   (GYield (Samples.record_message "r2") GStop))).
  - reflexivity.
  - reflexivity.
  - repeat split.
  - reflexivity.
Defined.

(** C6. The [spec] command is selected by the argument vector [spec]
    alone, which names no configuration file, and it never reads,
    transforms or writes a configuration: no such step occurs in its run,
    whatever the source does. When [Source.spec] returns, the run is
    exactly: create the scratch directory, call [spec], print one message,
    remove the directory, [sys.exit(0)]; that one message has type SPEC
    and carries the specification [Source.spec] returned as its [spec]
    payload, and no other payload. *)
Theorem spec_needs_no_config temp_dir source args ns :
  Argparse.parse_args args = Argparse.Parsed ns ->
  Argparse.command ns = Some "spec" ->
  (args = ["spec"] /\ Argparse.config ns = None) /\
  existsb is_config_step (fst (start temp_dir source args)) = false /\
  (forall s,
      Integration.spec source = Ok s ->
      start temp_dir source args
      = ([ParseArgs args; TempDirCreated temp_dir; Call CallSpec;
          Stdout (spec_message s); TempDirRemoved temp_dir],
         SystemExit 0) /\
      printed (fst (start temp_dir source args)) = [spec_message s] /\
      (exists m, printed (fst (start temp_dir source args)) = [m] /\
                 type m = SPEC /\ Protocol.spec m = Some s /\
                 connectionStatus m = None /\ catalog m = None /\
                 record m = None /\ state m = None /\ log m = None) /\
      exit_code (snd (start temp_dir source args)) = 0).
Proof.
  intros Hparse Hcmd.
  split; [exact (ArgparseFacts.spec_takes_no_argument args ns Hparse Hcmd)|].
  rewrite (start_dispatches _ _ _ _ _ Hparse Hcmd) by discriminate.
  unfold dispatch. simpl String.eqb. cbv iota.
  destruct (Integration.spec source) as [s|e]; split;
    try reflexivity; intros s' Hs; inversion Hs; subst.
  cbn [call bind print emit sys_exit fst snd app printed exit_code].
  repeat split. eexists. repeat split.
Qed.

(** A witness for C6: [spec] alone on the command line; the same run on a
    connector whose configuration cannot be read at all. *)
Lemma spec_needs_no_config_witness :
  (["spec"] = ["spec"] /\
   Argparse.config {| Argparse.command := Some "spec";
                      Argparse.config := None; Argparse.catalog := None;
                      Argparse.state := None |} = None) /\
  existsb is_config_step
          (fst (start "/tmp/tmpq1" Samples.unreadable_config_source ["spec"]))
  = false /\
  (forall s,
      Integration.spec Samples.unreadable_config_source = Ok s ->
      start "/tmp/tmpq1" Samples.unreadable_config_source ["spec"]
      = ([ParseArgs ["spec"]; TempDirCreated "/tmp/tmpq1"; Call CallSpec;
          Stdout (spec_message s); TempDirRemoved "/tmp/tmpq1"],
         SystemExit 0) /\
      printed (fst (start "/tmp/tmpq1" Samples.unreadable_config_source
                          ["spec"])) = [spec_message s] /\
      (exists m,
          printed (fst (start "/tmp/tmpq1" Samples.unreadable_config_source
                              ["spec"])) = [m] /\
          type m = SPEC /\ Protocol.spec m = Some s /\
          connectionStatus m = None /\ catalog m = None /\
          record m = None /\ state m = None /\ log m = None) /\
      exit_code (snd (start "/tmp/tmpq1" Samples.unreadable_config_source
                            ["spec"])) = 0).
Proof.
  apply (spec_needs_no_config "/tmp/tmpq1" Samples.unreadable_config_source
           ["spec"]
           {| Argparse.command := Some "spec"; Argparse.config := None;
              Argparse.catalog := None; Argparse.state := None |}).
  - reflexivity.
  - reflexivity.
Defined.

(** ** The scratch directory *)

Lemma for_each_print_no_temp g :
  existsb is_temp_event (fst (for_each g print)) = false.
Proof.
  induction g as [|m rest IH|e]; simpl; try reflexivity.
  destruct (for_each rest print) as [tr o]. simpl in *.
  destruct o; simpl; exact IH.
Qed.

Lemma call_events {A} c (r : Result A) : fst (call c r) = [Call c].
Proof. destruct r; reflexivity. Qed.

Lemma bind_no_temp {A B} (c : M A) (k : A -> M B) :
  existsb is_temp_event (fst c) = false ->
  (forall a, existsb is_temp_event (fst (k a)) = false) ->
  existsb is_temp_event (fst (bind c k)) = false.
Proof.
  intros Hc Hk. destruct c as [tr [a|code|e]]; simpl in *; try exact Hc.
  specialize (Hk a). destruct (k a) as [tr' o]. simpl in *.
  now rewrite existsb_app, Hc, Hk.
Qed.

Lemma call_no_temp {A} c (r : Result A) :
  existsb is_temp_event (fst (call c r)) = false.
Proof. now rewrite call_events. Qed.

(** The body of the [with] block neither creates nor removes a scratch
    directory itself. *)
Lemma dispatch_no_temp source ns cmd temp_dir :
  existsb is_temp_event (fst (dispatch source ns cmd temp_dir)) = false.
Proof.
  unfold dispatch.
  repeat match goal with
         | |- context [if ?b then _ else _] => destruct b
         | |- existsb _ (fst (bind _ _)) = false =>
             apply bind_no_temp; [|intros ?]
         | |- existsb _ (fst (call _ _)) = false => apply call_no_temp
         | |- existsb _ (fst (for_each _ print)) = false =>
             apply for_each_print_no_temp
         | |- _ => reflexivity
         end.
Qed.

Lemma live_temp_dirs_skip body rest live :
  existsb is_temp_event body = false ->
  live_temp_dirs (body ++ rest) live = live_temp_dirs rest live.
Proof.
  induction body as [|e body IH]; simpl; [reflexivity|].
  intros H. apply orb_false_iff in H as [He Hb].
  destruct e; simpl in He; try discriminate; auto.
Qed.

(** C8. For [check], [discover] and [read] the scratch directory that
    holds the rendered configuration is created once, and its removal is
    the last thing the run does, whatever the source makes of the command:
    a result followed by [sys.exit(0)], or an exception out of any of its
    operations. Nothing in between touches the directory's lifetime, and
    no directory is left when the run is over. *)
Theorem temp_dir_released temp_dir source args ns cmd :
  Argparse.parse_args args = Argparse.Parsed ns ->
  Argparse.command ns = Some cmd ->
  In cmd ["check"; "discover"; "read"] ->
  fst (start temp_dir source args)
  = ParseArgs args :: TempDirCreated temp_dir
      :: fst (dispatch source ns cmd temp_dir) ++ [TempDirRemoved temp_dir] /\
  existsb is_temp_event (fst (dispatch source ns cmd temp_dir)) = false /\
  live_temp_dirs (fst (start temp_dir source args)) [] = [] /\
  snd (start temp_dir source args) = snd (dispatch source ns cmd temp_dir) /\
  (forall u, snd (start temp_dir source args) <> Returned u).
Proof.
  intros Hparse Hcmd Hin.
  assert (Hne : cmd <> EmptyString).
  { simpl in Hin. intuition (subst; discriminate). }
  rewrite (start_dispatches _ _ _ _ _ Hparse Hcmd Hne).
  pose proof (dispatch_no_temp source ns cmd temp_dir) as Hbody.
  cbn [fst snd]. repeat split; try assumption.
  - cbn [live_temp_dirs]. rewrite live_temp_dirs_skip by assumption.
    simpl. now rewrite String.eqb_refl.
  - intros u. clear Hbody.
    unfold dispatch.
    repeat match goal with
           | |- context [if String.eqb ?a ?b then _ else _] =>
               destruct (String.eqb a b)
           | |- context [call ?c ?r] => destruct r; cbn [call bind]
           end; cbn [raise sys_exit bind snd]; try discriminate.
    + destruct (Status_eqb _ _); cbn [emit print sys_exit bind snd];
        discriminate.
    + match goal with
      | |- context [for_each ?g print] =>
          pose proof (for_each_print_outcome g) as Ho;
          destruct (for_each g print) as [tr o]; simpl in Ho; subst o;
          destruct (ending g)
      end; cbn [emit print sys_exit bind snd]; discriminate.
Qed.

(** A witness for C8 on the [sys.exit(0)] path of [check]. *)
Lemma temp_dir_released_witness :
  fst (start "/tmp/tmpq1" Samples.sample_source
             ["check"; "--config"; "c.json"])
  = ParseArgs ["check"; "--config"; "c.json"] :: TempDirCreated "/tmp/tmpq1"
      :: fst (dispatch Samples.sample_source
                {| Argparse.command := Some "check";
                   Argparse.config := Some (Argparse.VStr "c.json");
                   Argparse.catalog := None; Argparse.state := None |}
                "check" "/tmp/tmpq1")
         ++ [TempDirRemoved "/tmp/tmpq1"] /\
  existsb is_temp_event
          (fst (dispatch Samples.sample_source
                  {| Argparse.command := Some "check";
                     Argparse.config := Some (Argparse.VStr "c.json");
                     Argparse.catalog := None; Argparse.state := None |}
                  "check" "/tmp/tmpq1")) = false /\
  live_temp_dirs (fst (start "/tmp/tmpq1" Samples.sample_source
                         ["check"; "--config"; "c.json"])) [] = [] /\
  snd (start "/tmp/tmpq1" Samples.sample_source
             ["check"; "--config"; "c.json"])
  = snd (dispatch Samples.sample_source
           {| Argparse.command := Some "check";
              Argparse.config := Some (Argparse.VStr "c.json");
              Argparse.catalog := None; Argparse.state := None |}
           "check" "/tmp/tmpq1") /\
  (forall u, snd (start "/tmp/tmpq1" Samples.sample_source
                        ["check"; "--config"; "c.json"]) <> Returned u).
Proof.
  apply (temp_dir_released "/tmp/tmpq1" Samples.sample_source
           ["check"; "--config"; "c.json"]).
  - reflexivity.
  - reflexivity.
  - simpl. auto.
Defined.

(** The exception path: the configuration cannot be read, the exception
    leaves the block, and the directory is removed on the way. *)
Example exception_leaves_no_temp_dir :
  start "/tmp/tmpq1" Samples.unreadable_config_source
        ["discover"; "--config"; "c.json"]
  = ([ParseArgs ["discover"; "--config"; "c.json"];
      TempDirCreated "/tmp/tmpq1";
      Call (CallReadConfig (Some (Argparse.VStr "c.json")));
      TempDirRemoved "/tmp/tmpq1"],
     Raised (Propagated "FileNotFoundError")).
Proof. reflexivity. Qed.

(** The [sys.exit(0)] path of [read]. *)
Example exit_leaves_no_temp_dir :
  start "/tmp/tmpq1" Samples.sample_source
        ["read"; "--config"; "c.json"; "--catalog"; "cat.json"]
  = ([ParseArgs ["read"; "--config"; "c.json"; "--catalog"; "cat.json"];
      TempDirCreated "/tmp/tmpq1";
      Call (CallReadConfig (Some (Argparse.VStr "c.json")));
      Call CallTransformConfig;
      Call (CallWriteConfig "/tmp/tmpq1/config.json");
      Call CallRead;
      Call CallNext; Stdout (Samples.record_message "r1");
      Call CallNext; Stdout (Samples.record_message "r2");
      Call CallNext;
      TempDirRemoved "/tmp/tmpq1"],
     SystemExit 0).
Proof. reflexivity. Qed.

(** ** [main] *)

(** C10. When the object built by the loaded implementation is not an
    instance of [Source], [main] raises before anything else happens: the
    run has no event at all (no argument parsing, no message, no call on
    the object), whatever the command line says. *)
Theorem main_rejects_non_source temp_dir environ modules impl source argv :
  load_impl environ modules = Ok impl ->
  impl = Ok source ->
  isinstance_Source source = false ->
  main temp_dir impl argv = ([], Raised NotASource).
Proof.
  intros _ -> Hinst. unfold main. now rewrite Hinst.
Qed.

(** A witness for C10: the environment names a class whose instances
    answer to every method of a source without being one. *)
Lemma main_rejects_non_source_witness :
  main "/tmp/tmpq1" (Ok Samples.impostor) ["main.py"; "spec"]
  = ([], Raised NotASource).
Proof.
  apply (main_rejects_non_source "/tmp/tmpq1"
           (fun k => if String.eqb k "AIRBYTE_IMPL_MODULE"
                     then Some "source_x" else
                     if String.eqb k "AIRBYTE_IMPL_PATH"
                     then Some "SourceX" else None)
           (fun m => if String.eqb m "source_x"
                     then Some (fun c => if String.eqb c "SourceX"
                                         then Some (Ok Samples.impostor)
                                         else None)
                     else None)
           (Ok Samples.impostor) Samples.impostor ["main.py"; "spec"]).
  - reflexivity.
  - reflexivity.
  - reflexivity.
Defined.

(** The same object passed straight to [launch] would have been served. *)
Example impostor_would_answer :
  printed (fst (launch "/tmp/tmpq1" (methods Samples.impostor) ["spec"]))
  = [spec_message "{connectionSpecification: {}}"].
Proof. reflexivity. Qed.

(** ** Argument vectors that never reach a command *)

Lemma start_usage_error temp_dir source args :
  Argparse.parse_args args = Argparse.UsageError ->
  start temp_dir source args = ([ParseArgs args; UsageShown], SystemExit 2).
Proof.
  intros H. unfold start, parse_args_or_exit, bind. now rewrite H.
Qed.

Lemma start_no_arguments temp_dir source :
  start temp_dir source [] = ([ParseArgs []], Raised NoCommandPassed).
Proof. reflexivity. Qed.


(** Help is served before a missing flag is noticed. *)
Example help_comes_first :
  start "/tmp/tmpq1" Samples.sample_source ["check"; "-h"]
  = ([ParseArgs ["check"; "-h"]; HelpShown], SystemExit 0).
Proof. reflexivity. Qed.

(** ** The last branch of the dispatch *)

Lemma dispatch_known source ns cmd temp_dir c :
  In cmd Vocabulary.choices ->
  snd (dispatch source ns cmd temp_dir) <> Raised (UnexpectedCommand c).
Proof.
  intros Hin. unfold dispatch.
  assert (Hcall : forall A (k : SourceCall) (r : Result A) (f : A -> M unit),
             (forall a, snd (f a) <> Raised (UnexpectedCommand c)) ->
             snd (bind (call k r) f) <> Raised (UnexpectedCommand c)).
  { intros A k r f Hf. destruct r as [a|e]; cbn [call bind].
    - specialize (Hf a). now destruct (f a).
    - discriminate. }
  assert (Hexit : forall tr, snd (bind (A:=unit) (B:=unit) (tr, Returned tt)
                                       (fun _ => sys_exit 0))
                             <> Raised (UnexpectedCommand c)).
  { intros tr. discriminate. }
  simpl in Hin.
  destruct Hin as [<-|[<-|[<-|[<-|[]]]]]; simpl String.eqb; cbv iota;
    repeat (apply Hcall; intros ?).
  - discriminate.
  - destruct (Status_eqb _ _); discriminate.
  - discriminate.
  - match goal with
    | |- context [for_each ?g print] =>
        pose proof (for_each_print_outcome g) as Ho;
        destruct (for_each g print) as [tr o]; simpl in Ho; subst o;
        destruct (ending g)
    end; discriminate.
Qed.

(** C9, as the code has it. The command of an accepted argument vector is
    one of spec, check, discover and read, or it is unset, which happens
    for the empty argument vector only and is stopped by the "No command
    passed" guard. Hence no run of [start] ends in the "Unexpected
    command" exception of the last branch. *)
Theorem unexpected_command_unreachable args ns :
  Argparse.parse_args args = Argparse.Parsed ns ->
  ((Argparse.command ns = None /\ args = [])
   \/ exists c, Argparse.command ns = Some c /\ In c Vocabulary.choices) /\
  (forall temp_dir source c,
      snd (start temp_dir source args) <> Raised (UnexpectedCommand c)).
Proof.
  intros Hparse.
  pose proof (ArgparseFacts.parse_args_command args ns Hparse) as Hcmd.
  split; [exact Hcmd|]. intros temp_dir source c.
  destruct Hcmd as [[_ ->]|(cmd & Hc & Hin)].
  - rewrite start_no_arguments. discriminate.
  - rewrite (start_dispatches _ _ _ _ _ Hparse Hc).
    + cbn [snd]. now apply dispatch_known.
    + simpl in Hin. intuition (subst; discriminate).
Qed.

(** A witness for C9. *)
Lemma unexpected_command_unreachable_witness :
  ((Argparse.command
      {| Argparse.command := Some "discover";
         Argparse.config := Some (Argparse.VStr "c.json");
         Argparse.catalog := None; Argparse.state := None |} = None /\
    ["discover"; "--config"; "c.json"] = [])
   \/ exists c,
       Argparse.command
         {| Argparse.command := Some "discover";
            Argparse.config := Some (Argparse.VStr "c.json");
            Argparse.catalog := None; Argparse.state := None |} = Some c /\
       In c Vocabulary.choices) /\
  (forall temp_dir source c,
      snd (start temp_dir source ["discover"; "--config"; "c.json"])
      <> Raised (UnexpectedCommand c)).
Proof.
  apply (unexpected_command_unreachable ["discover"; "--config"; "c.json"]).
  reflexivity.
Defined.

(** The first half of C9 fails for the empty argument vector: the parser
    accepts it and the parsed command is none of the four. *)
Lemma accepted_without_command :
  ~ (forall args ns,
        Argparse.parse_args args = Argparse.Parsed ns ->
        exists c, Argparse.command ns = Some c /\ In c Vocabulary.choices).
Proof.
  intros H.
  destruct (H [] Argparse.empty_namespace eq_refl) as (c & Hc & _).
  discriminate.
Qed.

End EntrypointFacts.

(* ===================================================================== *)
(** * Facts about the streams *)
(* ===================================================================== *)

Module StreamsFacts.
Import Streams.
Local Open Scope stream_scope.

(** ** Arithmetic of page counts *)

Lemma div_step n p : 1 <= p -> p <= n -> n / p = S ((n - p) / p).
Proof.
  intros Hp Hn.
  replace n with ((n - p) + 1 * p) at 1 by lia.
  rewrite Nat.div_add by lia. lia.
Qed.

(** The two ceilings of the page-count formula are the same number. *)
Lemma page_count_formula k p :
  1 <= p ->
  (if k mod p =? 0 then ceil_div (k + 1) p else ceil_div k p) = k / p + 1.
Proof.
  intros Hp. unfold ceil_div.
  pose proof (Nat.div_mod_eq k p) as Hk.
  pose proof (Nat.mod_upper_bound k p ltac:(lia)) as Hr.
  destruct (Nat.eqb_spec (k mod p) 0) as [Hz|Hnz].
  - symmetry. apply (Nat.div_unique _ _ _ 0); lia.
  - symmetry. apply (Nat.div_unique _ _ _ (k mod p - 1)); lia.
Qed.

(** ** The page walk against the paginating mock *)

Lemma pages_log_S page_size offset n :
  pages_log page_size offset (S n)
  = GetCampaigns offset page_size
      :: pages_log page_size (offset + page_size) n.
Proof.
  unfold pages_log. simpl. rewrite Nat.add_0_r. f_equal.
  rewrite <- seq_shift, map_map. apply map_ext. intros i. f_equal. lia.
Qed.

Lemma read_pages_ext fuel f g page_size :
  (forall start count, f start count = g start count) ->
  forall offset w,
    read_pages fuel f page_size offset w = read_pages fuel g page_size offset w.
Proof.
  intros Hfg. induction fuel as [|fuel IH]; intros offset w; [reflexivity|].
  simpl. unfold bind_fetch, request. rewrite Hfg.
  destruct (length (g offset page_size) <? page_size); [reflexivity|].
  now rewrite IH.
Qed.

Lemma read_pages_mock data page_size :
  1 <= page_size ->
  forall fuel offset w,
    (length data - offset) / page_size < fuel ->
    read_pages fuel (campaigns_paginated_response_cb data) page_size offset w
    = (Some (skipn offset data),
       {| ctx_profiles := ctx_profiles w;
          ctx_loaded := ctx_loaded w;
          calls := calls w
                   ++ pages_log page_size offset
                        ((length data - offset) / page_size + 1) |}).
Proof.
  intros Hp. induction fuel as [|fuel IH]; intros offset w Hfuel; [lia|].
  cbn [read_pages]. unfold bind_fetch at 1. unfold request at 1.
  unfold campaigns_paginated_response_cb at 1 2.
  rewrite length_firstn, length_skipn.
  destruct (Nat.ltb_spec (Nat.min page_size (length data - offset)) page_size)
    as [Hlt|Hge].
  - assert (Hsmall : length data - offset < page_size) by lia.
    rewrite (Nat.div_small _ _ Hsmall). unfold unit_fetch.
    cbn [ctx_profiles ctx_loaded calls].
    rewrite firstn_all2 by (rewrite length_skipn; lia).
    unfold pages_log. simpl. now rewrite Nat.add_0_r.
  - assert (Hfull : page_size <= length data - offset) by lia.
    rewrite (div_step _ _ Hp Hfull) in Hfuel |- *.
    unfold bind_fetch. rewrite IH.
    2:{ cbn [calls ctx_profiles ctx_loaded].
        replace (length data - (offset + page_size))
          with (length data - offset - page_size) by lia. lia. }
    unfold unit_fetch. cbn [ctx_profiles ctx_loaded calls]. f_equal.
    + f_equal.
      transitivity (firstn page_size (skipn offset data)
                    ++ skipn page_size (skipn offset data));
        [|apply firstn_skipn].
      f_equal. rewrite skipn_skipn. f_equal. lia.
    + f_equal. rewrite <- app_assoc. f_equal.
      replace (length data - (offset + page_size))
        with (length data - offset - page_size) by lia.
      replace (S ((length data - offset - page_size) / page_size) + 1)
        with (S ((length data - offset - page_size) / page_size + 1)) by lia.
      now rewrite pages_log_S.
Qed.

Lemma page_requests_app w log :
  (forall r, In r log -> exists a b, r = GetCampaigns a b) ->
  length (filter (fun r => match r with GetCampaigns _ _ => true
                                   | _ => false end)
                 (calls w ++ log))
  = page_requests w + length log.
Proof.
  intros Hlog. unfold page_requests. rewrite filter_app, length_app. f_equal.
  induction log as [|r log IH]; [reflexivity|].
  destruct (Hlog r (or_introl eq_refl)) as (a & b & ->). simpl. f_equal.
  apply IH. intros r' Hr'. apply Hlog. now right.
Qed.

(** C2. Against a dataset of K records, a walk with page size P >= 1
    yields exactly the K records, in order, and issues K / P + 1 page
    requests at offsets 0, P, 2P, ...: that is ceil((K+1)/P) requests when
    P divides K (the last one comes back empty) and ceil(K/P) otherwise.
    A page of exactly P records never ends the walk: the next page is
    requested. *)
Theorem pagination_complete data page_size fuel w :
  1 <= page_size ->
  length data / page_size < fuel ->
  fst (read_pages fuel (campaigns_paginated_response_cb data) page_size 0 w)
  = Some data /\
  calls (snd (read_pages fuel (campaigns_paginated_response_cb data)
                         page_size 0 w))
  = calls w ++ pages_log page_size 0 (length data / page_size + 1) /\
  page_requests (snd (read_pages fuel (campaigns_paginated_response_cb data)
                                 page_size 0 w))
  = page_requests w
    + (if length data mod page_size =? 0
       then ceil_div (length data + 1) page_size
       else ceil_div (length data) page_size) /\
  (forall endpoint offset fuel' w',
      length (endpoint offset page_size) = page_size ->
      read_pages (S fuel') endpoint page_size offset w'
      = bind_fetch (read_pages fuel' endpoint page_size (offset + page_size))
             (fun rest => unit_fetch (endpoint offset page_size ++ rest))
             (snd (request (GetCampaigns offset page_size) w'))).
Proof.
  intros Hp Hfuel.
  rewrite (read_pages_mock data page_size Hp fuel 0 w)
    by (now rewrite Nat.sub_0_r).
  rewrite Nat.sub_0_r. cbn [fst snd calls skipn].
  repeat split.
  - unfold page_requests at 1. cbn [calls].
    rewrite page_requests_app.
    + rewrite page_count_formula by assumption.
      unfold pages_log. now rewrite length_map, length_seq.
    + unfold pages_log. intros r Hr.
      apply in_map_iff in Hr as (i & <- & _). eauto.
  - intros endpoint offset fuel' w' Hfull.
    cbn [read_pages]. unfold bind_fetch at 1. unfold request at 1.
    rewrite Hfull, Nat.ltb_irrefl. reflexivity.
Qed.

(** A witness for C2: four campaigns in pages of two take three
    requests, the third of which comes back empty. *)
Lemma pagination_complete_witness :
  fst (read_pages 3 (campaigns_paginated_response_cb Samples.four_campaigns)
                  2 0 fresh)
  = Some Samples.four_campaigns /\
  calls (snd (read_pages 3 (campaigns_paginated_response_cb
                              Samples.four_campaigns) 2 0 fresh))
  = calls fresh ++ pages_log 2 0 (length Samples.four_campaigns / 2 + 1) /\
  page_requests (snd (read_pages 3 (campaigns_paginated_response_cb
                                      Samples.four_campaigns) 2 0 fresh))
  = page_requests fresh
    + (if length Samples.four_campaigns mod 2 =? 0
       then ceil_div (length Samples.four_campaigns + 1) 2
       else ceil_div (length Samples.four_campaigns) 2) /\
  (forall endpoint offset fuel' w',
      length (endpoint offset 2) = 2 ->
      read_pages (S fuel') endpoint 2 offset w'
      = bind_fetch (read_pages fuel' endpoint 2 (offset + 2))
             (fun rest => unit_fetch (endpoint offset 2 ++ rest))
             (snd (request (GetCampaigns offset 2) w'))).
Proof.
  apply (pagination_complete Samples.four_campaigns 2 3 fresh).
  - lia.
  - simpl. lia.
Defined.

Example four_campaigns_in_pages_of_two :
  read_pages 3 (campaigns_paginated_response_cb Samples.four_campaigns)
             2 0 fresh
  = (Some Samples.four_campaigns,
     {| ctx_profiles := []; ctx_loaded := false;
        calls := [GetCampaigns 0 2; GetCampaigns 2 2; GetCampaigns 4 2] |}).
Proof. reflexivity. Qed.

(** ** What a dependent stream leaves untouched *)

Lemma upstream_reads_request w a b :
  upstream_reads (snd (request (GetCampaigns a b) w)) = upstream_reads w.
Proof.
  unfold upstream_reads, request. cbn [snd calls].
  rewrite filter_app, length_app. simpl. lia.
Qed.

Lemma read_pages_preserves fuel endpoint page_size :
  forall offset w,
    ctx_profiles (snd (read_pages fuel endpoint page_size offset w))
    = ctx_profiles w /\
    ctx_loaded (snd (read_pages fuel endpoint page_size offset w))
    = ctx_loaded w /\
    upstream_reads (snd (read_pages fuel endpoint page_size offset w))
    = upstream_reads w.
Proof.
  induction fuel as [|fuel IH]; intros offset w; [repeat split|].
  pose proof (upstream_reads_request w offset page_size) as Hup.
  unfold request in Hup. cbn [snd] in Hup.
  cbn [read_pages]. unfold bind_fetch, request. cbv beta iota.
  destruct (length (endpoint offset page_size) <? page_size).
  - unfold unit_fetch. cbn [snd ctx_profiles ctx_loaded].
    repeat split. exact Hup.
  - match goal with
    | |- context [read_pages fuel endpoint page_size ?o ?w1] =>
        destruct (IH o w1) as (Hctx & Hld & Hreads);
        destruct (read_pages fuel endpoint page_size o w1) as [[rest|] w2]
    end; cbn [snd unit_fetch ctx_profiles ctx_loaded] in *;
      repeat split; congruence.
Qed.

Lemma read_each_preserves fuel endpoint page_size parents :
  forall w,
    ctx_profiles (snd (read_each fuel endpoint page_size parents w))
    = ctx_profiles w /\
    ctx_loaded (snd (read_each fuel endpoint page_size parents w))
    = ctx_loaded w /\
    upstream_reads (snd (read_each fuel endpoint page_size parents w))
    = upstream_reads w.
Proof.
  induction parents as [|p parents IH]; intros w; [repeat split|].
  cbn [read_each]. unfold bind_fetch.
  destruct (read_pages_preserves fuel (endpoint p) page_size 0 w)
    as (Hctx & Hld & Hreads).
  destruct (read_pages fuel (endpoint p) page_size 0 w) as [[records|] w1];
    cbn [snd] in *; [|repeat split; assumption].
  destruct (IH w1) as (Hctx' & Hld' & Hreads').
  destruct (read_each fuel endpoint page_size parents w1) as [[rest|] w2];
    cbn [snd unit_fetch] in *; repeat split; congruence.
Qed.

(** A dependent stream never changes the cached collection and never
    reads the upstream resource. *)
Lemma dependent_preserves fuel s w :
  ctx_profiles (snd (dependent_read_records fuel s w)) = ctx_profiles w /\
  ctx_loaded (snd (dependent_read_records fuel s w)) = ctx_loaded w /\
  upstream_reads (snd (dependent_read_records fuel s w)) = upstream_reads w.
Proof.
  unfold dependent_read_records, bind_fetch, get_ctx_profiles.
  apply read_each_preserves.
Qed.

(** ** Fan-out of a dependent stream *)

(** The sub-extractions do not disturb one another: when each parent's
    walk yields its child result wherever it starts, the stream yields
    the child results one after the other. *)
Lemma read_each_results fuel endpoint page_size data parents :
  (forall p, In p parents ->
             forall w, fst (read_pages fuel (endpoint p) page_size 0 w)
                       = Some (data p)) ->
  forall w,
    fst (read_each fuel endpoint page_size parents w)
    = Some (flat_map data parents).
Proof.
  induction parents as [|p parents IH]; intros Hall w; [reflexivity|].
  pose proof (Hall p (or_introl eq_refl) w) as Hp.
  cbn [read_each flat_map]. unfold bind_fetch.
  destruct (read_pages fuel (endpoint p) page_size 0 w) as [[records|] w1];
    cbn [fst] in Hp; [|discriminate].
  injection Hp as ->.
  specialize (IH (fun q Hq => Hall q (or_intror Hq)) w1).
  destruct (read_each fuel endpoint page_size parents w1) as [[rest|] w2];
    cbn [fst] in IH; [|discriminate].
  injection IH as ->. reflexivity.
Qed.

(** The walk against the paginating mock is such a sub-extraction. *)
Lemma read_each_mock fuel endpoint page_size data parents :
  1 <= page_size ->
  (forall p, In p parents ->
             (forall start count,
                 endpoint p start count
                 = campaigns_paginated_response_cb (data p) start count) /\
             length (data p) / page_size < fuel) ->
  forall w,
    fst (read_each fuel endpoint page_size parents w)
    = Some (flat_map data parents).
Proof.
  intros Hp Hall. apply read_each_results. intros p Hin w.
  destruct (Hall p Hin) as [Hext Hfuel].
  rewrite (read_pages_ext fuel _ _ page_size Hext).
  rewrite (read_pages_mock (data p) page_size Hp fuel 0 w)
    by (now rewrite Nat.sub_0_r).
  reflexivity.
Qed.

Lemma length_flat_map_const {A B} (f : A -> list B) (l : list A) c :
  (forall a, In a l -> length (f a) = c) ->
  length (flat_map f l) = length l * c.
Proof.
  induction l as [|a l IH]; intros H; [reflexivity|].
  simpl. rewrite length_app, (H a (or_introl eq_refl)), IH; [lia|].
  intros b Hb. apply H. now right.
Qed.

Lemma length_flat_map_sum {A B} (f : A -> list B) (l : list A) :
  length (flat_map f l) = list_sum (map (fun a => length (f a)) l).
Proof.
  induction l as [|a l IH]; [reflexivity|].
  simpl. now rewrite length_app, IH.
Qed.

(** C3. Take a dependent stream and the cached upstream records its
    filter retains, and let each retained record yield, independently of
    what was read before, the full paginated child result [data p]; no
    condition is put on the records the filter drops. Then one run of
    [read_records] yields the child results of the retained records one
    after the other: as many records as the per-parent results have
    together, and U * C when each of the U retained records has a child
    result of size C. *)
Theorem dependent_fan_out s data fuel w :
  (forall p, In p (filter (keep s) (ctx_profiles w)) ->
             forall w', fst (read_pages fuel (endpoint s p) (PAGE_SIZE s) 0 w')
                        = Some (data p)) ->
  fst (dependent_read_records fuel s w)
  = Some (flat_map data (filter (keep s) (ctx_profiles w))) /\
  (forall records,
      fst (dependent_read_records fuel s w) = Some records ->
      length records
      = list_sum (map (fun p => length (data p))
                      (filter (keep s) (ctx_profiles w))) /\
      forall size,
        (forall p, In p (filter (keep s) (ctx_profiles w)) ->
                   length (data p) = size) ->
        length records = length (filter (keep s) (ctx_profiles w)) * size).
Proof.
  intros Hall.
  assert (Hrun : fst (dependent_read_records fuel s w)
                 = Some (flat_map data (filter (keep s) (ctx_profiles w)))).
  { unfold dependent_read_records, bind_fetch, get_ctx_profiles.
    now apply read_each_results. }
  split; [exact Hrun|].
  intros records Hrecords. rewrite Hrun in Hrecords.
  injection Hrecords as <-. split.
  - apply length_flat_map_sum.
  - intros size Hsize. now apply length_flat_map_const.
Qed.

(** A witness for C3, the run of [test_streams_campaigns_4_vendors]: four
    cached vendor profiles and an endpoint that answers every request
    with the same four campaigns, read with the page size 100. *)
Lemma dependent_fan_out_witness :
  fst (dependent_read_records
         1 Samples.static_campaigns_stream
         {| ctx_profiles := map make_vendor Samples.four_profiles;
            ctx_loaded := true;
            calls := [GetProfiles] |})
  = Some (flat_map (fun _ => Samples.four_campaigns)
                   (filter (keep Samples.static_campaigns_stream)
                           (map make_vendor Samples.four_profiles))) /\
  (forall records,
      fst (dependent_read_records
             1 Samples.static_campaigns_stream
             {| ctx_profiles := map make_vendor Samples.four_profiles;
                ctx_loaded := true;
                calls := [GetProfiles] |}) = Some records ->
      length records
      = list_sum (map (fun _ => length Samples.four_campaigns)
                      (filter (keep Samples.static_campaigns_stream)
                              (map make_vendor Samples.four_profiles))) /\
      forall size,
        (forall p,
            In p (filter (keep Samples.static_campaigns_stream)
                         (map make_vendor Samples.four_profiles)) ->
            length Samples.four_campaigns = size) ->
        length records
        = length (filter (keep Samples.static_campaigns_stream)
                         (map make_vendor Samples.four_profiles)) * size).
Proof.
  apply (dependent_fan_out
           Samples.static_campaigns_stream (fun _ => Samples.four_campaigns) 1
           {| ctx_profiles := map make_vendor Samples.four_profiles;
              ctx_loaded := true;
              calls := [GetProfiles] |}).
  intros p _ w'. reflexivity.
Defined.

(** The same against the paginating mock, for any page size: the walks
    need only find the mock regular on the records the filter retains. *)
Lemma fan_out_against_paginating_mock s data size fuel w :
  1 <= PAGE_SIZE s ->
  size / PAGE_SIZE s < fuel ->
  (forall p, In p (filter (keep s) (ctx_profiles w)) ->
             (forall start count,
                 endpoint s p start count
                 = campaigns_paginated_response_cb (data p) start count) /\
             length (data p) = size) ->
  option_map (@length Campaign) (fst (dependent_read_records fuel s w))
  = Some (length (filter (keep s) (ctx_profiles w)) * size).
Proof.
  intros Hp Hfuel Hall.
  unfold dependent_read_records, bind_fetch, get_ctx_profiles.
  rewrite (read_each_mock fuel (endpoint s) (PAGE_SIZE s) data).
  - cbn [option_map]. f_equal. apply length_flat_map_const.
    intros p Hin. now destruct (Hall p Hin).
  - exact Hp.
  - intros p Hin. destruct (Hall p Hin) as [Hext Hlen].
    split; [exact Hext|]. now rewrite Hlen.
Qed.

(** A stream that retains the one vendor among the cached profiles and
    whose endpoint answers nothing sensible for the others. *)
Example one_vendor_among_sellers :
  fst (dependent_read_records
         3 {| keep := is_vendor;
              endpoint := fun p =>
                if is_vendor p
                then campaigns_paginated_response_cb Samples.four_campaigns
                else static_campaigns_response Samples.four_campaigns;
              PAGE_SIZE := 2 |}
         {| ctx_profiles := Samples.four_profiles; ctx_loaded := true;
            calls := [GetProfiles] |})
  = Some Samples.four_campaigns.
Proof. reflexivity. Qed.

(** ** One read of the upstream stream *)

Lemma profiles_read_records_cached profiles_response w :
  ctx_loaded w = true ->
  profiles_read_records profiles_response w = (Some (ctx_profiles w), w).
Proof.
  intros H. unfold profiles_read_records, bind_fetch, get_ctx_loaded.
  now rewrite H.
Qed.

Lemma profiles_read_records_first profiles_response w :
  ctx_loaded w = false ->
  profiles_read_records profiles_response w
  = (Some profiles_response,
     {| ctx_profiles := profiles_response; ctx_loaded := true;
        calls := calls w ++ [GetProfiles] |}).
Proof.
  intros H. unfold profiles_read_records, bind_fetch, get_ctx_loaded.
  now rewrite H.
Qed.

(** Before the upstream records are cached a dependent stream finds
    nothing to iterate over. *)
Lemma dependent_nothing_cached fuel s w :
  ctx_profiles w = [] ->
  dependent_read_records fuel s w = (Some [], w).
Proof.
  intros H. unfold dependent_read_records, bind_fetch, get_ctx_profiles.
  now rewrite H.
Qed.

(** Once the records are cached, no read of any stream requests them
    again or replaces them. *)
Lemma read_records_cached fuel profiles_response stream w :
  ctx_loaded w = true ->
  ctx_profiles (snd (read_records fuel profiles_response stream w))
  = ctx_profiles w /\
  ctx_loaded (snd (read_records fuel profiles_response stream w)) = true /\
  upstream_reads (snd (read_records fuel profiles_response stream w))
  = upstream_reads w.
Proof.
  intros Hld. destruct stream as [|s]; cbn [read_records]; unfold bind_fetch.
  - rewrite (profiles_read_records_cached _ _ Hld). cbn [snd unit_fetch].
    auto.
  - destruct (dependent_preserves fuel s w) as (Hc & Hl & Hr).
    destruct (dependent_read_records fuel s w) as [[records|] w1];
      cbn [snd unit_fetch] in *; repeat split; congruence.
Qed.

Lemma read_streams_cached fuel profiles_response schedule :
  forall w,
    ctx_loaded w = true ->
    ctx_profiles (snd (read_streams fuel profiles_response schedule w))
    = ctx_profiles w /\
    ctx_loaded (snd (read_streams fuel profiles_response schedule w)) = true /\
    upstream_reads (snd (read_streams fuel profiles_response schedule w))
    = upstream_reads w.
Proof.
  induction schedule as [|stream schedule IH]; intros w Hld; [auto|].
  cbn [read_streams]. unfold bind_fetch.
  destruct (read_records_cached fuel profiles_response stream w Hld)
    as (Hc & Hl & Hr).
  destruct (read_records fuel profiles_response stream w) as [[count|] w1];
    cbn [snd] in *; [|auto].
  destruct (IH w1 Hl) as (Hc' & Hl' & Hr').
  destruct (read_streams fuel profiles_response schedule w1)
    as [[counts|] w2]; cbn [snd unit_fetch] in *; repeat split; congruence.
Qed.

(** A lifetime that reads the upstream stream at some point requests the
    upstream resource once, however it goes on. *)
Lemma read_streams_once fuel profiles_response schedule :
  In Upstream schedule ->
  forall w,
    ctx_loaded w = false ->
    ctx_profiles w = [] ->
    ctx_profiles (snd (read_streams fuel profiles_response schedule w))
    = profiles_response /\
    upstream_reads (snd (read_streams fuel profiles_response schedule w))
    = upstream_reads w + 1.
Proof.
  induction schedule as [|stream schedule IH]; intros Hin w Hld Hctx;
    [destruct Hin|].
  cbn [read_streams]. unfold bind_fetch.
  destruct stream as [|s]; cbn [read_records]; unfold bind_fetch.
  - rewrite (profiles_read_records_first _ _ Hld). cbn [unit_fetch].
    match goal with
    | |- context [read_streams fuel profiles_response schedule ?w1] =>
        destruct (read_streams_cached fuel profiles_response schedule w1
                                      eq_refl) as (Hc & _ & Hr);
        destruct (read_streams fuel profiles_response schedule w1)
          as [[counts|] w2]
    end; cbn [snd unit_fetch ctx_profiles] in *;
      (split; [exact Hc|]); rewrite Hr;
      unfold upstream_reads; cbn [calls];
      rewrite filter_app, length_app; reflexivity.
  - rewrite (dependent_nothing_cached fuel s w Hctx). cbn [unit_fetch].
    destruct Hin as [Hin|Hin]; [discriminate|].
    specialize (IH Hin w Hld Hctx).
    destruct (read_streams fuel profiles_response schedule w)
      as [[counts|] w2]; cbn [snd] in *; exact IH.
Qed.

(** No lifetime requests the upstream resource twice; one that never
    reads the upstream stream does not request it at all. *)
Lemma read_streams_at_most_once fuel profiles_response schedule :
  upstream_reads (snd (read_streams fuel profiles_response schedule fresh))
  <= 1.
Proof.
  assert (Hnone : forall sch w,
             ~ In Upstream sch -> ctx_profiles w = [] ->
             snd (read_streams fuel profiles_response sch w) = w).
  { induction sch as [|stream sch IH]; intros w Hnot Hctx; [reflexivity|].
    cbn [read_streams]. unfold bind_fetch.
    destruct stream as [|s]; [exfalso; apply Hnot; now left|].
    cbn [read_records]. unfold bind_fetch.
    rewrite (dependent_nothing_cached fuel s w Hctx). cbn [unit_fetch].
    specialize (IH w (fun H => Hnot (or_intror H)) Hctx).
    destruct (read_streams fuel profiles_response sch w) as [[counts|] w2];
      cbn [snd] in *; exact IH. }
  destruct (in_dec (fun a b : bool => Bool.bool_dec a b)
                   true
                   (map (fun st => match st with
                                   | Upstream => true
                                   | Dependent _ => false
                                   end) schedule)) as [Hin|Hnot].
  - apply in_map_iff in Hin as ([|s] & Heq & Hin); [|discriminate].
    destruct (read_streams_once fuel profiles_response schedule Hin fresh
                                eq_refl eq_refl) as [_ Hr].
    rewrite Hr. reflexivity.
  - rewrite Hnone; [cbn; lia| |reflexivity].
    intros Hin. apply Hnot. apply in_map_iff. now exists Upstream.
Qed.



(** What the reads of that lifetime yield: nothing for the dependent
    stream read before anything is cached, the four profiles at each read
    of the upstream stream, sixteen campaigns for each dependent stream
    read after the first of them. *)
Example lifetime_of_five_reads :
  fst (read_streams 5 (map make_vendor Samples.four_profiles)
         [Dependent (Samples.campaigns_stream 2); Upstream;
          Dependent (Samples.campaigns_stream 5); Upstream;
          Dependent (Samples.campaigns_stream 2)] fresh)
  = Some [0; 4; 16; 4; 16].
Proof. reflexivity. Qed.

(** ** The unit tests *)

(** [test_streams_profile]: four records, four cached profiles, one
    request. *)
Example test_streams_profile :
  profiles_read_records Samples.four_profiles fresh
  = (Some Samples.four_profiles,
     {| ctx_profiles := Samples.four_profiles; ctx_loaded := true;
        calls := [GetProfiles] |}).
Proof. reflexivity. Qed.

(** [test_streams_campaigns_one_vendor]: one vendor among the profiles. *)
Example test_streams_campaigns_one_vendor :
  fst (source_read 1 Samples.four_profiles
         [{| keep := is_vendor;
             endpoint := fun _ =>
               static_campaigns_response Samples.four_campaigns;
             PAGE_SIZE := 100 |}] fresh)
  = Some [4; 4].
Proof. reflexivity. Qed.

(** [test_streams_campaigns_4_vendors]: every profile made a vendor. *)
Example test_streams_campaigns_4_vendors :
  fst (source_read 1 (map make_vendor Samples.four_profiles)
         [{| keep := is_vendor;
             endpoint := fun _ =>
               static_campaigns_response Samples.four_campaigns;
             PAGE_SIZE := 100 |}] fresh)
  = Some [4; 4 * 4].
Proof. reflexivity. Qed.

(** [test_streams_campaigns_pagination] for the page sizes 1, 2, 5, 100. *)
Example test_streams_campaigns_pagination :
  map (fun page_size =>
         fst (source_read 5 (map make_vendor Samples.four_profiles)
                          [Samples.campaigns_stream page_size] fresh))
      [1; 2; 5; 100]
  = [Some [4; 16]; Some [4; 16]; Some [4; 16]; Some [4; 16]].
Proof. reflexivity. Qed.

(** Two dependents on the same upstream: still one upstream request. *)
Example two_dependents_one_upstream_read :
  upstream_reads
    (snd (source_read 5 (map make_vendor Samples.four_profiles)
            [Samples.campaigns_stream 2; Samples.campaigns_stream 5] fresh))
  = 1.
Proof. reflexivity. Qed.

End StreamsFacts.

(* ===================================================================== *)
(** * More about the command line *)
(* ===================================================================== *)

Module CommandLineFacts.
Import Argparse Vocabulary ArgparseFacts.

(** ** The main parser never finds an option ambiguous *)

Lemma main_options_unambiguous s :
  parse_optional main_options s <> None.
Proof.
  unfold parse_optional.
  destruct (String.eqb s EmptyString); [discriminate|].
  destruct (starts_with_dash s) eqn:Hd; cbn [negb]; [|discriminate].
  destruct (lookup s main_options); [discriminate|].
  destruct (String.length s =? 1) eqn:Hlen; [discriminate|].
  destruct s as [|c0 [|c1 s']]; try discriminate.
  simpl in Hd. apply Ascii.eqb_eq in Hd. subst c0.
  match goal with
  | |- match ?x with Some c => _ | None => _ end <> None =>
      destruct x; [discriminate|]
  end.
  assert (Hle : length (get_option_tuples main_options
                          (String "-" (String c1 s'))) <= 1).
  { unfold get_option_tuples. cbn [second_is_dash].
    destruct (Ascii.eqb_spec c1 "-") as [->|Hc1].
    - destruct (split_eq (String "-" (String "-" s'))) as [[l r]|] eqn:Hs.
      + simpl in Hs. destruct (split_eq s') as [[l' r']|]; [|discriminate].
        injection Hs as <- <-. rewrite length_map. simpl.
        repeat match goal with
               | |- context [if ?b then _ else _] => destruct b
               end; simpl; lia.
      + rewrite length_map. simpl.
        repeat match goal with
               | |- context [if ?b then _ else _] => destruct b
               end; simpl; lia.
    - assert (F1 : String.eqb "--help"
                     (String.substring 0 2 (String "-" (String c1 s')))
                   = false).
      { apply String.eqb_neq. cbn [String.substring]. congruence. }
      assert (F2 : String.prefix (String "-" (String c1 s')) "--help"
                   = false).
      { cbn [String.prefix]. destruct (ascii_dec "-" "-"); [|reflexivity].
        destruct (ascii_dec c1 "-"); [congruence|reflexivity]. }
      unfold main_options, help_options. cbn [flat_map fst snd].
      rewrite F1, F2, app_nil_r.
      repeat match goal with
             | |- context [if ?b then _ else _] => destruct b
             end; simpl; lia. }
  destruct (get_option_tuples main_options (String "-" (String c1 s')))
    as [|t [|t' ts]]; try discriminate.
  - destruct (negative_number_like _); [discriminate|].
    destruct (contains_char _ _); discriminate.
  - simpl in Hle. lia.
Qed.

Lemma main_classifies args : classify_all main_options args <> None.
Proof.
  induction args as [|s rest IH]; simpl; [discriminate|].
  destruct (String.eqb s "--"); [discriminate|].
  pose proof (main_options_unambiguous s) as Hs.
  destruct (parse_optional main_options s); [|congruence].
  destruct (classify_all main_options rest); [discriminate|congruence].
Qed.

(** Once the first word is a subcommand, the rest of the command line is
    the subparser's business alone. *)
Lemma parse_args_subcommand c p rest :
  find_parser c name_parser_map = Some p ->
  parse_args (c :: rest) = subparsers_action (c :: rest) [].
Proof.
  intros Hp. destruct (chosen_is_positional c p Hp) as [Hdash Hcls].
  unfold parse_args. cbn [classify_all]. rewrite Hdash, Hcls.
  pose proof (main_classifies rest) as Hrest.
  destruct (classify_all main_options rest) as [cs|] eqn:Hcs; [|congruence].
  cbn [main_loop]. now rewrite (classify_all_fst _ _ _ Hcs).
Qed.

(** ** What a subparser hands back *)

Lemma sub_loop_done_present p :
  forall n toks ns extras ns' extras',
    length toks <= n ->
    sub_loop p toks ns extras = KDone ns' extras' ->
    all_present (required p) ns' = true.
Proof.
  induction n as [|n IH]; intros toks ns extras ns' extras' Hlen.
  - destruct toks; [|simpl in Hlen; lia]. cbn [sub_loop].
    destruct (all_present (required p) ns) eqn:Hp; [|discriminate].
    now intros [= <- _].
  - destruct toks as [|[s c] rest]; cbn [sub_loop].
    { destruct (all_present (required p) ns) eqn:Hp; [|discriminate].
      now intros [= <- _]. }
    simpl in Hlen.
    destruct c as [| |t]; try (apply IH; lia).
    destruct (consume_optional (options p) t (hd_error rest))
      as [| |d v [|]|]; try discriminate; try (apply IH; lia).
    destruct rest as [|tok rest']; [discriminate|].
    apply IH. simpl in Hlen. lia.
Qed.

(** A destination whose option occurs nowhere among the classified
    arguments keeps the value it had. *)
Lemma sub_loop_untouched p d :
  forall n toks ns extras ns' extras',
    length toks <= n ->
    Forall (fun tok => forall os e,
                snd tok <> ClsO (Some (ActStore d), os, e)) toks ->
    sub_loop p toks ns extras = KDone ns' extras' ->
    get d ns' = get d ns.
Proof.
  induction n as [|n IH]; intros toks ns extras ns' extras' Hlen Hall.
  - destruct toks; [|simpl in Hlen; lia]. cbn [sub_loop].
    destruct (all_present (required p) ns); [|discriminate].
    now intros [= <- _].
  - destruct toks as [|[s c] rest]; cbn [sub_loop].
    { destruct (all_present (required p) ns); [|discriminate].
      now intros [= <- _]. }
    simpl in Hlen. inversion Hall as [|? ? Hhd Htl]; subst. simpl in Hhd.
    destruct c as [| |[[[[|d']|] os] e]].
    + apply IH; [lia|assumption].
    + apply IH; [lia|assumption].
    + unfold consume_optional. destruct e as [explicit_arg|];
        [destruct (flag_chain _ _ _ _)|]; discriminate.
    + assert (Hdd : d <> d').
      { intros ->. now apply (Hhd os e). }
      destruct e as [explicit_arg|]; cbn [consume_optional].
      * intros H. apply IH in H; [|lia|assumption].
        rewrite H. now apply get_store_other.
      * destruct rest as [|[v cv] rest']; cbn [hd_error]; [discriminate|].
        destruct cv; try discriminate.
        inversion Htl; subst. intros H.
        apply IH in H; [|simpl in Hlen; lia|assumption].
        rewrite H. now apply get_store_other.
    + cbn [consume_optional]. apply IH; [lia|assumption].
Qed.

Lemma subparsers_action_inv c rest ns :
  subparsers_action (c :: rest) [] = Parsed ns ->
  exists p ns',
    find_parser c name_parser_map = Some p /\
    sub_parse_known_args p rest = KDone ns' [] /\
    command ns = Some c /\
    forall d, get d ns = get d ns'.
Proof.
  unfold subparsers_action.
  destruct (find_parser c name_parser_map) as [p|]; [|discriminate].
  destruct (sub_parse_known_args p rest) as [| |ns' extras'] eqn:Hsub;
    try discriminate.
  cbn [app]. destruct extras'; [|discriminate].
  intros [= <-]. exists p, ns'.
  split; [reflexivity|]. split; [exact Hsub|]. split; [reflexivity|].
  intros []; reflexivity.
Qed.

(** An accepted command line that starts with a word was parsed by the
    subparser of that word. *)
Lemma parse_args_inv c rest ns :
  parse_args (c :: rest) = Parsed ns ->
  exists p ns',
    find_parser c name_parser_map = Some p /\
    sub_parse_known_args p rest = KDone ns' [] /\
    command ns = Some c /\
    forall d, get d ns = get d ns'.
Proof.
  intros H.
  destruct (parse_args_command _ _ H) as [[_ [=]]|(c' & Hc' & _)].
  revert H. unfold parse_args.
  destruct (classify_all main_options (c :: rest)) as [toks|] eqn:Hc;
    [|discriminate].
  intros H.
  destruct (main_loop_parsed_command _ _ _ _ H Hc')
    as (_ & cl & rest0 & -> & Hsub).
  apply classify_all_fst in Hc. simpl in Hc. injection Hc as -> <-.
  now apply subparsers_action_inv.
Qed.

(** X1. Whatever command line is accepted for [check], [discover] or
    [read], the namespace carries a value for [--config], and for [read]
    one for [--catalog] too: [parsed_args.config] is never [None] where
    line 95 reads it. *)
Theorem required_flags_present args ns cmd :
  parse_args args = Parsed ns ->
  command ns = Some cmd ->
  In cmd ["check"; "discover"; "read"] ->
  (exists v, config ns = Some v) /\
  (cmd = "read" -> exists v, catalog ns = Some v).
Proof.
  intros Hparse Hcmd Hin.
  destruct args as [|c rest].
  { destruct (parse_args_command _ _ Hparse) as [[Hn _]|(c' & Hc' & _)];
      [congruence|].
    vm_compute in Hparse. injection Hparse as <-. discriminate. }
  destruct (parse_args_inv _ _ _ Hparse) as (p & ns' & Hp & Hsub & Hc & Hget).
  assert (c = cmd) by congruence. subst c.
  unfold sub_parse_known_args in Hsub.
  destruct (classify_all (options p) rest) as [toks|]; [|discriminate].
  pose proof (sub_loop_done_present p _ _ _ _ _ _ (Nat.le_refl _) Hsub)
    as Hall.
  pose proof (Hget DConfig) as Hconfig. pose proof (Hget DCatalog) as Hcat.
  simpl in Hconfig, Hcat. rewrite Hconfig, Hcat.
  simpl in Hin.
  destruct Hin as [<-|[<-|[<-|[]]]]; vm_compute in Hp;
    injection Hp as <-; unfold all_present in Hall; simpl in Hall;
    destruct (config ns'); try discriminate;
    (split; [eauto|]); try discriminate.
  intros _. destruct (catalog ns'); [eauto|discriminate].
Qed.

(** A witness for X1. *)
Lemma required_flags_present_witness :
  (exists v,
      config {| command := Some "read"; config := Some (VStr "c.json");
                catalog := Some (VStr "k.json"); state := None |} = Some v) /\
  ("read" = "read" ->
   exists v,
     catalog {| command := Some "read"; config := Some (VStr "c.json");
                catalog := Some (VStr "k.json"); state := None |} = Some v).
Proof.
  apply (required_flags_present
           ["read"; "--catalog"; "k.json"; "--config"; "c.json"] _ "read").
  - reflexivity.
  - reflexivity.
  - simpl. auto.
Defined.

(** X2. A destination that no argument after the subcommand names stays
    unset in an accepted namespace; in particular [read] without
    [--state] passes [None] as the state path. *)
Theorem unnamed_flag_unset c rest ns d :
  parse_args (c :: rest) = Parsed ns ->
  (forall s, In s rest -> names (flag d) s = false) ->
  get d ns = None.
Proof.
  intros Hparse Hnames.
  destruct (parse_args_inv _ _ _ Hparse) as (p & ns' & Hp & Hsub & _ & Hget).
  rewrite Hget. unfold sub_parse_known_args in Hsub.
  destruct (classify_all (options p) rest) as [toks|] eqn:Htoks;
    [|discriminate].
  apply (sub_loop_untouched p d _ _ _ _ _ _ (Nat.le_refl _)) in Hsub;
    [rewrite Hsub; now destruct d|].
  apply Forall_forall. intros [s cl] Hin os e Heq. simpl in Heq. subst cl.
  destruct (classify_all_options _ _ _ _ _ Htoks Hin) as (Hs & Hsep & Hpo).
  destruct (parse_optional_names _ _ _ _ _ Hsep Hpo) as [Hm Hn].
  pose proof (subparser_options c p os _ Hp Hm) as Hk. simpl in Hk.
  subst os. rewrite (Hnames s Hs) in Hn. discriminate.
Qed.

(** A witness for X2: no [--state] on the command line. *)
Lemma unnamed_flag_unset_witness :
  get DState {| command := Some "read"; config := Some (VStr "c.json");
                catalog := Some (VStr "k.json"); state := None |} = None.
Proof.
  apply (unnamed_flag_unset "read" ["--config"; "c.json";
                                    "--catalog"; "k.json"]).
  - reflexivity.
  - intros s [<-|[<-|[<-|[<-|[]]]]]; reflexivity.
Defined.

(** ** Command lines in their usual form *)

Lemma positional_class m p :
  starts_with_dash p = false -> parse_optional m p = Some ClsA.
Proof.
  intros H. unfold parse_optional.
  destruct (String.eqb p EmptyString); [reflexivity|]. now rewrite H.
Qed.

Lemma positional_not_separator p :
  starts_with_dash p = false -> String.eqb p "--" = false.
Proof.
  intros H. destruct (String.eqb_spec p "--") as [->|]; [discriminate|].
  reflexivity.
Qed.

Ltac positional :=
  repeat match goal with
         | H : starts_with_dash ?p = false |- context [String.eqb ?p "--"] =>
             rewrite (positional_not_separator p H)
         | H : starts_with_dash ?p = false
           |- context [parse_optional ?m ?p] =>
             rewrite (positional_class m p H)
         end.

Lemma parse_help_first h rest :
  h = "-h" \/ h = "--help" -> parse_args (h :: rest) = HelpExit.
Proof.
  intros Hh. unfold parse_args.
  pose proof (main_classifies rest) as Hrest.
  destruct Hh as [-> | ->]; cbn [classify_all];
    change (String.eqb "-h" "--") with false;
    change (String.eqb "--help" "--") with false; cbv iota;
    [change (parse_optional main_options "-h")
       with (Some (ClsO (Some ActHelp, "-h", None)))
    |change (parse_optional main_options "--help")
       with (Some (ClsO (Some ActHelp, "--help", None)))];
    destruct (classify_all main_options rest); try congruence; reflexivity.
Qed.

Lemma parse_config c p :
  In c ["check"; "discover"] ->
  starts_with_dash p = false ->
  parse_args [c; "--config"; p]
  = Parsed {| command := Some c; config := Some (VStr p);
              catalog := None; state := None |}.
Proof.
  intros Hc Hp. simpl in Hc.
  destruct Hc as [<-|[<-|[]]];
    [rewrite (parse_args_subcommand _ check_parser) by reflexivity
    |rewrite (parse_args_subcommand _ discover_parser) by reflexivity];
    unfold subparsers_action; cbn [find_parser name_parser_map];
    simpl String.eqb; cbv iota;
    unfold sub_parse_known_args; cbn [classify_all]; positional;
    reflexivity.
Qed.

Lemma parse_config_twice c p q :
  In c ["check"; "discover"] ->
  starts_with_dash p = false ->
  starts_with_dash q = false ->
  parse_args [c; "--config"; p; "--config"; q]
  = Parsed {| command := Some c; config := Some (VStr q);
              catalog := None; state := None |}.
Proof.
  intros Hc Hp Hq. simpl in Hc.
  destruct Hc as [<-|[<-|[]]];
    [rewrite (parse_args_subcommand _ check_parser) by reflexivity
    |rewrite (parse_args_subcommand _ discover_parser) by reflexivity];
    unfold subparsers_action; cbn [find_parser name_parser_map];
    simpl String.eqb; cbv iota;
    unfold sub_parse_known_args; cbn [classify_all]; positional;
    reflexivity.
Qed.

Lemma parse_config_equals c p :
  In c ["check"; "discover"] ->
  parse_args [c; ("--config=" ++ p)%string]
  = Parsed {| command := Some c;
              config := Some (if String.eqb p "--" then VEmptyList
                              else VStr p);
              catalog := None; state := None |}.
Proof.
  intros Hc. simpl in Hc.
  destruct Hc as [<-|[<-|[]]];
    [rewrite (parse_args_subcommand _ check_parser) by reflexivity
    |rewrite (parse_args_subcommand _ discover_parser) by reflexivity];
    reflexivity.
Qed.

Lemma parse_read p q :
  starts_with_dash p = false ->
  starts_with_dash q = false ->
  parse_args ["read"; "--config"; p; "--catalog"; q]
  = Parsed {| command := Some "read"; config := Some (VStr p);
              catalog := Some (VStr q); state := None |}.
Proof.
  intros Hp Hq.
  rewrite (parse_args_subcommand _ read_parser) by reflexivity.
  unfold subparsers_action. cbn [find_parser name_parser_map].
  simpl String.eqb. cbv iota.
  unfold sub_parse_known_args. cbn [classify_all]. positional.
  reflexivity.
Qed.

Lemma parse_read_swapped p q :
  starts_with_dash p = false ->
  starts_with_dash q = false ->
  parse_args ["read"; "--catalog"; q; "--config"; p]
  = Parsed {| command := Some "read"; config := Some (VStr p);
              catalog := Some (VStr q); state := None |}.
Proof.
  intros Hp Hq.
  rewrite (parse_args_subcommand _ read_parser) by reflexivity.
  unfold subparsers_action. cbn [find_parser name_parser_map].
  simpl String.eqb. cbv iota.
  unfold sub_parse_known_args. cbn [classify_all]. positional.
  reflexivity.
Qed.

Lemma parse_read_state p q r :
  starts_with_dash p = false ->
  starts_with_dash q = false ->
  starts_with_dash r = false ->
  parse_args ["read"; "--state"; r; "--config"; p; "--catalog"; q]
  = Parsed {| command := Some "read"; config := Some (VStr p);
              catalog := Some (VStr q); state := Some (VStr r) |}.
Proof.
  intros Hp Hq Hr.
  rewrite (parse_args_subcommand _ read_parser) by reflexivity.
  unfold subparsers_action. cbn [find_parser name_parser_map].
  simpl String.eqb. cbv iota.
  unfold sub_parse_known_args. cbn [classify_all]. positional.
  reflexivity.
Qed.

End CommandLineFacts.

(* ===================================================================== *)
(** * More about the dispatcher *)
(* ===================================================================== *)

Module DispatcherFacts.
Import Protocol Integration Entrypoint EntrypointFacts.
Local Open Scope entry_scope.

(** ** How a run can end *)


Lemma dispatch_outcome source ns cmd temp_dir :
  snd (dispatch source ns cmd temp_dir) = SystemExit 0
  \/ exists e, snd (dispatch source ns cmd temp_dir) = Raised e.
Proof.
  unfold dispatch.
  repeat match goal with
         | |- context [if String.eqb ?a ?b then _ else _] =>
             destruct (String.eqb a b)
         | |- context [call ?c ?r] => destruct r; cbn [call bind]
         end; cbn [raise sys_exit bind snd emit print]; eauto.
  - destruct (Status_eqb _ _); cbn [emit print sys_exit bind snd]; auto.
  - match goal with
    | |- context [for_each ?g print] =>
        pose proof (for_each_print_outcome g) as Ho;
        destruct (for_each g print) as [tr o]; simpl in Ho; subst o;
        destruct (ending g)
    end; cbn [emit print sys_exit bind snd]; eauto.
Qed.

Lemma start_help temp_dir source args :
  Argparse.parse_args args = Argparse.HelpExit ->
  start temp_dir source args = ([ParseArgs args; HelpShown], SystemExit 0).
Proof.
  intros H. unfold start, parse_args_or_exit, bind. now rewrite H.
Qed.

Lemma start_without_command temp_dir source args ns :
  Argparse.parse_args args = Argparse.Parsed ns ->
  Argparse.command ns = None ->
  start temp_dir source args = ([ParseArgs args], Raised NoCommandPassed).
Proof.
  intros H Hc. unfold start, parse_args_or_exit, bind. now rewrite H, Hc.
Qed.

Lemma chosen_not_empty cmd : In cmd Vocabulary.choices -> cmd <> EmptyString.
Proof. simpl. intuition (subst; discriminate). Qed.

(** The shape of every run: what the parser did, and for a parsed command
    the body of the [with] block between creation and removal of the
    scratch directory. *)
Lemma start_cases temp_dir source args :
  (Argparse.parse_args args = Argparse.HelpExit /\
   start temp_dir source args = ([ParseArgs args; HelpShown], SystemExit 0))
  \/ (Argparse.parse_args args = Argparse.UsageError /\
      start temp_dir source args
      = ([ParseArgs args; UsageShown], SystemExit 2))
  \/ (Argparse.parse_args args = Argparse.Parsed Argparse.empty_namespace /\
      args = [] /\
      start temp_dir source args = ([ParseArgs args], Raised NoCommandPassed))
  \/ exists ns cmd,
      Argparse.parse_args args = Argparse.Parsed ns /\
      Argparse.command ns = Some cmd /\
      In cmd Vocabulary.choices /\
      start temp_dir source args
      = (ParseArgs args :: TempDirCreated temp_dir
           :: fst (dispatch source ns cmd temp_dir)
           ++ [TempDirRemoved temp_dir],
         snd (dispatch source ns cmd temp_dir)).
Proof.
  destruct (Argparse.parse_args args) as [ns| |] eqn:Hparse.
  - destruct (ArgparseFacts.parse_args_command _ _ Hparse)
      as [[Hn ->]|(cmd & Hc & Hin)].
    + right. right. left. vm_compute in Hparse. injection Hparse as <-.
      repeat split.
    + right. right. right. exists ns, cmd. repeat split; try assumption.
      apply start_dispatches; try assumption. now apply chosen_not_empty.
  - left. split; [reflexivity|]. now apply start_help.
  - right. left. split; [reflexivity|]. now apply start_usage_error.
Qed.

(** X3. A run of [start] never returns to its caller: it ends in
    [sys.exit(0)], in argparse's [sys.exit(2)], or in an exception. *)
Theorem start_never_returns temp_dir source args :
  snd (start temp_dir source args) = SystemExit 0
  \/ snd (start temp_dir source args) = SystemExit 2
  \/ exists e, snd (start temp_dir source args) = Raised e.
Proof.
  destruct (start_cases temp_dir source args)
    as [[_ H]|[[_ H]|[(_ & _ & H)|(ns & cmd & _ & _ & _ & H)]]];
    rewrite H; cbn [snd]; eauto.
  destruct (dispatch_outcome source ns cmd temp_dir) as [Ho|[e Ho]];
    rewrite Ho; eauto.
Qed.


(** An accepted run whose source ends the process with status 2. *)
Example exit_code_two_from_the_source :
  Argparse.parse_args ["spec"] <> Argparse.UsageError /\
  exit_code (snd (start "/tmp/tmpq1" (Samples.exiting_source 2) ["spec"])) = 2.
Proof. split; [discriminate|reflexivity]. Qed.

(** X5. No run leaves a scratch directory behind, and a scratch directory
    is created exactly when the parser accepted a command. *)
Theorem no_temp_dir_left temp_dir source args :
  live_temp_dirs (fst (start temp_dir source args)) [] = [] /\
  (In (TempDirCreated temp_dir) (fst (start temp_dir source args))
   <-> exists ns cmd, Argparse.parse_args args = Argparse.Parsed ns /\
                      Argparse.command ns = Some cmd).
Proof.
  destruct (start_cases temp_dir source args)
    as [[Hp H]|[[Hp H]|[(Hp & _ & H)|(ns & cmd & Hp & Hc & _ & H)]]];
    rewrite H, Hp; cbn [fst].
  - split; [reflexivity|]. split.
    + simpl. intuition discriminate.
    + intros (ns & cmd & [=] & _).
  - split; [reflexivity|]. split.
    + simpl. intuition discriminate.
    + intros (ns & cmd & [=] & _).
  - split; [reflexivity|]. split.
    + simpl. intuition discriminate.
    + intros (ns & cmd & [= <-] & Hc). discriminate.
  - split.
    + cbn [live_temp_dirs].
      rewrite live_temp_dirs_skip by apply dispatch_no_temp.
      simpl. now rewrite String.eqb_refl.
    + split; [eauto|]. intros _. right. now left.
Qed.

(** ** Failures of the source *)

Lemma not_spec cmd :
  In cmd ["check"; "discover"; "read"] -> String.eqb cmd "spec" = false.
Proof. simpl. intuition (subst; reflexivity). Qed.

Lemma in_choices cmd :
  In cmd ["check"; "discover"; "read"] -> cmd <> EmptyString.
Proof. simpl. intuition (subst; discriminate). Qed.

(** X6. For [check], [discover] and [read], an exception raised while the
    configuration is read, transformed or written leaves the dispatcher
    as it is: the later steps and the command's own operation are never
    called, nothing is printed, the scratch directory is removed, and the
    process ends with what was raised: exit code 1 for an exception. *)
Theorem config_failure_propagates temp_dir source args ns cmd :
  Argparse.parse_args args = Argparse.Parsed ns ->
  Argparse.command ns = Some cmd ->
  In cmd ["check"; "discover"; "read"] ->
  (forall e,
      read_config source (Argparse.config ns) = Err e ->
      start temp_dir source args
      = ([ParseArgs args; TempDirCreated temp_dir;
          Call (CallReadConfig (Argparse.config ns));
          TempDirRemoved temp_dir],
         Raised (Propagated e))) /\
  (forall raw e,
      read_config source (Argparse.config ns) = Ok raw ->
      transform_config source raw = Err e ->
      start temp_dir source args
      = ([ParseArgs args; TempDirCreated temp_dir;
          Call (CallReadConfig (Argparse.config ns));
          Call CallTransformConfig;
          TempDirRemoved temp_dir],
         Raised (Propagated e))) /\
  (forall raw rendered e,
      read_config source (Argparse.config ns) = Ok raw ->
      transform_config source raw = Ok rendered ->
      write_config source rendered (os_path_join temp_dir "config.json")
      = Err e ->
      start temp_dir source args
      = ([ParseArgs args; TempDirCreated temp_dir;
          Call (CallReadConfig (Argparse.config ns));
          Call CallTransformConfig;
          Call (CallWriteConfig (os_path_join temp_dir "config.json"));
          TempDirRemoved temp_dir],
         Raised (Propagated e))).
Proof.
  intros Hparse Hcmd Hin.
  rewrite (start_dispatches _ _ _ _ _ Hparse Hcmd (in_choices _ Hin)).
  unfold dispatch. rewrite (not_spec _ Hin).
  split; [|split].
  - intros e He. rewrite He. reflexivity.
  - intros raw e Hr He. rewrite Hr. cbn [call bind]. rewrite He. reflexivity.
  - intros raw rendered e Hr Ht He. rewrite Hr. cbn [call bind].
    rewrite Ht. cbn [call bind]. rewrite He. reflexivity.
Qed.

(** A witness for X6: the configuration file does not exist. *)
Lemma config_failure_propagates_witness :
  start "/tmp/tmpq1" Samples.unreadable_config_source
        ["check"; "--config"; "c.json"]
  = ([ParseArgs ["check"; "--config"; "c.json"];
      TempDirCreated "/tmp/tmpq1";
      Call (CallReadConfig (Some (Argparse.VStr "c.json")));
      TempDirRemoved "/tmp/tmpq1"],
     Raised (Propagated "FileNotFoundError")).
Proof.
  apply (config_failure_propagates
           "/tmp/tmpq1" Samples.unreadable_config_source
           ["check"; "--config"; "c.json"]
           {| Argparse.command := Some "check";
              Argparse.config := Some (Argparse.VStr "c.json");
              Argparse.catalog := None; Argparse.state := None |} "check").
  - reflexivity.
  - reflexivity.
  - simpl. auto.
  - reflexivity.
Defined.



(** A generator that calls [sys.exit(5)] after its first record: the
    record is on the output channel and the exit code is 5. *)
Example generator_exit_status :
  printed (fst (start "/tmp/tmpq1" Samples.quitting_source
                      ["read"; "--config"; "c.json"; "--catalog"; "k.json"]))
  = [Samples.record_message "r1"] /\
  exit_code (snd (start "/tmp/tmpq1" Samples.quitting_source
                        ["read"; "--config"; "c.json";
                         "--catalog"; "k.json"])) = 5.
Proof. split; reflexivity. Qed.

(** ** The single-answer commands *)

(** X8. When [Source.discover] returns a catalog, [discover] prints
    exactly one message, after the configuration steps, and exits with
    code 0; the message has type CATALOG and carries the returned catalog
    as its [catalog] payload, and no other payload. *)
Theorem discover_prints_catalog temp_dir source args ns cc c :
  Argparse.parse_args args = Argparse.Parsed ns ->
  Argparse.command ns = Some "discover" ->
  config_steps_succeed temp_dir source ns cc ->
  discover source cc = Ok c ->
  start temp_dir source args
  = ([ParseArgs args; TempDirCreated temp_dir;
      Call (CallReadConfig (Argparse.config ns)); Call CallTransformConfig;
      Call (CallWriteConfig (os_path_join temp_dir "config.json"));
      Call CallDiscover; Stdout (catalog_message c);
      TempDirRemoved temp_dir],
     SystemExit 0) /\
  printed (fst (start temp_dir source args)) = [catalog_message c] /\
  exists m, printed (fst (start temp_dir source args)) = [m] /\
            type m = CATALOG /\ catalog m = Some c /\
            Protocol.spec m = None /\ connectionStatus m = None /\
            record m = None /\ state m = None /\ log m = None.
Proof.
  intros Hparse Hcmd (Hread & Htrans & Hwrite & Hrawp & Hrendp) Hdisc.
  rewrite (start_dispatches _ _ _ _ _ Hparse Hcmd) by discriminate.
  assert (Hcc : {| raw_config := raw_config cc;
                   rendered_config := rendered_config cc;
                   raw_config_path := Argparse.config ns;
                   rendered_config_path :=
                     os_path_join temp_dir "config.json" |} = cc).
  { destruct cc; simpl in *; congruence. }
  unfold dispatch. simpl String.eqb. cbv iota.
  rewrite Hread. cbn [call bind]. rewrite Htrans. cbn [call bind].
  rewrite Hwrite. cbn [call bind]. rewrite Hcc, Hdisc.
  cbn [call bind print emit sys_exit fst snd app printed].
  repeat split. eexists. repeat split.
Qed.

(** A witness for X8. *)
Lemma discover_prints_catalog_witness :
  start "/tmp/tmpq1" Samples.sample_source ["discover"; "--config"; "c.json"]
  = ([ParseArgs ["discover"; "--config"; "c.json"];
      TempDirCreated "/tmp/tmpq1";
      Call (CallReadConfig (Some (Argparse.VStr "c.json")));
      Call CallTransformConfig;
      Call (CallWriteConfig (os_path_join "/tmp/tmpq1" "config.json"));
      Call CallDiscover; Stdout (catalog_message "{streams: []}");
      TempDirRemoved "/tmp/tmpq1"],
     SystemExit 0) /\
  printed (fst (start "/tmp/tmpq1" Samples.sample_source
                      ["discover"; "--config"; "c.json"]))
  = [catalog_message "{streams: []}"] /\
  exists m, printed (fst (start "/tmp/tmpq1" Samples.sample_source
                                ["discover"; "--config"; "c.json"])) = [m] /\
            type m = CATALOG /\ catalog m = Some "{streams: []}" /\
            Protocol.spec m = None /\ connectionStatus m = None /\
            record m = None /\ state m = None /\ log m = None.
Proof.
  apply (discover_prints_catalog
           "/tmp/tmpq1" Samples.sample_source
           ["discover"; "--config"; "c.json"]
           {| Argparse.command := Some "discover";
              Argparse.config := Some (Argparse.VStr "c.json");
              Argparse.catalog := None; Argparse.state := None |}
           {| raw_config := "{api_key: k}";
              rendered_config := "{api_key: k}";
              raw_config_path := Some (Argparse.VStr "c.json");
              rendered_config_path := "/tmp/tmpq1/config.json" |}).
  - reflexivity.
  - reflexivity.
  - repeat split.
  - reflexivity.
Defined.



(** The exit code alone does not tell the two cases apart: a source whose
    [spec] calls [sys.exit(0)] ends the run with code 0 and no answer. *)
Example exit_zero_without_answer :
  exit_code (snd (start "/tmp/tmpq1" (Samples.exiting_source 0) ["spec"])) = 0
  /\ printed (fst (start "/tmp/tmpq1" (Samples.exiting_source 0) ["spec"]))
     = [].
Proof. split; reflexivity. Qed.

(** X10. The log line of [check] follows the status: "Check succeeded" at
    level info for SUCCEEDED, "Check failed" at level error for anything
    else, and never both. *)
Theorem check_log_follows_status temp_dir source args ns cc check_result :
  Argparse.parse_args args = Argparse.Parsed ns ->
  Argparse.command ns = Some "check" ->
  config_steps_succeed temp_dir source ns cc ->
  check source cc = Ok check_result ->
  (In (LogInfo "Check succeeded") (fst (start temp_dir source args))
   <-> status check_result = SUCCEEDED) /\
  (In (LogError "Check failed") (fst (start temp_dir source args))
   <-> status check_result = FAILED).
Proof.
  intros Hparse Hcmd (Hread & Htrans & Hwrite & Hrawp & Hrendp) Hcheck.
  rewrite (start_dispatches _ _ _ _ _ Hparse Hcmd) by discriminate.
  assert (Hcc : {| raw_config := raw_config cc;
                   rendered_config := rendered_config cc;
                   raw_config_path := Argparse.config ns;
                   rendered_config_path :=
                     os_path_join temp_dir "config.json" |} = cc).
  { destruct cc; simpl in *; congruence. }
  unfold dispatch. simpl String.eqb. cbv iota.
  rewrite Hread. cbn [call bind]. rewrite Htrans. cbn [call bind].
  rewrite Hwrite. cbn [call bind]. rewrite Hcc, Hcheck. cbn [call bind].
  destruct (status check_result);
    cbn [Status_eqb emit print sys_exit bind fst snd app];
    repeat split; try discriminate; try reflexivity;
    simpl; intuition discriminate.
Qed.

(** A witness for X10. *)
Lemma check_log_follows_status_witness :
  (In (LogInfo "Check succeeded")
      (fst (start "/tmp/tmpq1" Samples.sample_source
                  ["check"; "--config"; "c.json"]))
   <-> status Samples.unreachable = SUCCEEDED) /\
  (In (LogError "Check failed")
      (fst (start "/tmp/tmpq1" Samples.sample_source
                  ["check"; "--config"; "c.json"]))
   <-> status Samples.unreachable = FAILED).
Proof.
  apply (check_log_follows_status
           "/tmp/tmpq1" Samples.sample_source ["check"; "--config"; "c.json"]
           {| Argparse.command := Some "check";
              Argparse.config := Some (Argparse.VStr "c.json");
              Argparse.catalog := None; Argparse.state := None |}
           {| raw_config := "{api_key: k}";
              rendered_config := "{api_key: k}";
              raw_config_path := Some (Argparse.VStr "c.json");
              rendered_config_path := "/tmp/tmpq1/config.json" |}).
  - reflexivity.
  - reflexivity.
  - repeat split.
  - reflexivity.
Defined.

(** ** Where the rendered configuration goes *)

Lemma prefix_append a b : String.prefix a (a ++ b)%string = true.
Proof.
  induction a as [|c a IH]; simpl; [now destruct b|].
  destruct (ascii_dec c c); [exact IH|congruence].
Qed.

Lemma bind_Forall {A B} (P : Event -> Prop) (c : M A) (k : A -> M B) :
  Forall P (fst c) ->
  (forall a, Forall P (fst (k a))) ->
  Forall P (fst (bind c k)).
Proof.
  intros Hc Hk. destruct c as [tr [a|code|e]]; simpl in *; try exact Hc.
  specialize (Hk a). destruct (k a) as [tr' o]. simpl in *.
  apply Forall_app. now split.
Qed.

Lemma for_each_print_Forall (P : Event -> Prop) g :
  P (Call CallNext) -> (forall m, P (Stdout m)) ->
  Forall P (fst (for_each g print)).
Proof.
  intros Hn Hs. induction g as [|m rest IH|e]; simpl.
  - now constructor.
  - destruct (for_each rest print) as [tr o]. simpl in *.
    destruct o; simpl; repeat constructor; auto.
  - now constructor.
Qed.

Lemma dispatch_write_path source ns cmd temp_dir :
  Forall (fun e => forall p, e = Call (CallWriteConfig p) ->
                             p = os_path_join temp_dir "config.json")
         (fst (dispatch source ns cmd temp_dir)).
Proof.
  unfold dispatch.
  repeat match goal with
         | |- context [if ?b then _ else _] => destruct b
         | |- Forall _ (fst (bind _ _)) => apply bind_Forall; [|intros ?]
         | |- Forall _ (fst (call _ ?r)) =>
             rewrite call_events; constructor; [|constructor];
             intros ? [=]; congruence
         | |- Forall _ (fst (for_each _ print)) =>
             apply for_each_print_Forall; intros; discriminate
         | |- Forall _ (fst (emit _)) =>
             constructor; [|constructor]; intros ? [=]
         | |- Forall _ (fst (print _)) =>
             constructor; [|constructor]; intros ? [=]
         | |- Forall _ (fst (sys_exit _)) => constructor
         | |- Forall _ (fst (raise _)) => constructor
         end.
Qed.

(** X11. Whenever a run writes the rendered configuration, it writes it
    to [config.json] inside the scratch directory of that run, which is
    removed before the process ends. *)
Theorem config_written_in_temp_dir temp_dir source args p :
  In (Call (CallWriteConfig p)) (fst (start temp_dir source args)) ->
  p = os_path_join temp_dir "config.json" /\
  String.prefix temp_dir p = true /\
  live_temp_dirs (fst (start temp_dir source args)) [] = [].
Proof.
  intros Hin.
  assert (Hp : p = os_path_join temp_dir "config.json").
  { destruct (start_cases temp_dir source args)
      as [[_ H]|[[_ H]|[(_ & _ & H)|(ns & cmd & _ & _ & _ & H)]]];
      rewrite H in Hin; cbn [fst] in Hin;
      try (simpl in Hin; intuition discriminate).
    destruct Hin as [Hin|[Hin|Hin]]; try discriminate.
    apply in_app_or in Hin as [Hin|[Hin|[]]]; [|discriminate].
    pose proof (dispatch_write_path source ns cmd temp_dir) as Hall.
    rewrite Forall_forall in Hall. exact (Hall _ Hin p eq_refl). }
  split; [exact Hp|]. split.
  - subst p. unfold os_path_join.
    change (String.prefix "/" "config.json") with false. cbv iota.
    destruct (String.eqb temp_dir EmptyString || ends_with_slash temp_dir);
      apply prefix_append.
  - destruct (start_cases temp_dir source args)
      as [[_ H]|[[_ H]|[(_ & _ & H)|(ns & cmd & _ & _ & _ & H)]]];
      rewrite H; cbn [fst]; try reflexivity.
    cbn [live_temp_dirs].
    rewrite live_temp_dirs_skip by apply dispatch_no_temp.
    simpl. now rewrite String.eqb_refl.
Qed.

(** A witness for X11. *)
Lemma config_written_in_temp_dir_witness :
  "/tmp/tmpq1/config.json" = os_path_join "/tmp/tmpq1" "config.json" /\
  String.prefix "/tmp/tmpq1" "/tmp/tmpq1/config.json" = true /\
  live_temp_dirs (fst (start "/tmp/tmpq1" Samples.sample_source
                             ["check"; "--config"; "c.json"])) [] = [].
Proof.
  apply (config_written_in_temp_dir
           "/tmp/tmpq1" Samples.sample_source ["check"; "--config"; "c.json"]).
  simpl. auto 10.
Defined.

(** ** The order of the calls *)

Lemma for_each_print_calls g c :
  In (Call c) (fst (for_each g print)) -> c = CallNext.
Proof.
  intros Hin.
  pose proof (for_each_print_Forall
                (fun e => forall c', e = Call c' -> c' = CallNext) g) as H.
  rewrite Forall_forall in H.
  apply (H ltac:(now intros ? [= <-]) ltac:(intros; discriminate) _ Hin c
           eq_refl).
Qed.

(** [In (Call op) tr] on a trace spelled out event by event. *)
Ltac absent_call Hin :=
  exfalso; simpl in Hin;
  repeat match type of Hin with
         | _ \/ _ => destruct Hin as [Hin|Hin]; [discriminate Hin|]
         end;
  try contradiction; try discriminate Hin.

Lemma dispatch_operation source ns cmd temp_dir op :
  op = CallCheck \/ op = CallDiscover \/ op = CallRead ->
  In (Call op) (fst (dispatch source ns cmd temp_dir)) ->
  exists post,
    fst (dispatch source ns cmd temp_dir)
    = [Call (CallReadConfig (Argparse.config ns)); Call CallTransformConfig;
       Call (CallWriteConfig (os_path_join temp_dir "config.json"));
       Call op] ++ post.
Proof.
  intros Hop. unfold dispatch.
  destruct (String.eqb cmd "spec").
  { destruct (Integration.spec source); cbn [call bind print emit sys_exit
                                               fst app];
      intros Hin; destruct Hop as [-> | [-> | ->]]; absent_call Hin. }
  destruct (read_config source (Argparse.config ns)) as [raw|e];
    cbn [call bind fst app];
    [|intros Hin; destruct Hop as [-> | [-> | ->]]; absent_call Hin].
  destruct (transform_config source raw) as [rendered|e];
    cbn [call bind fst app];
    [|intros Hin; destruct Hop as [-> | [-> | ->]]; absent_call Hin].
  destruct (write_config source rendered _) as [[]|e];
    cbn [call bind fst app];
    [|intros Hin; destruct Hop as [-> | [-> | ->]]; absent_call Hin].
  destruct (String.eqb cmd "check").
  { destruct (check source _) as [r|e]; cbn [call bind fst app];
      [destruct (Status_eqb _ _)|];
      cbn [emit print sys_exit bind fst app];
      intros Hin; destruct Hop as [-> | [-> | ->]];
      first [eexists; reflexivity|absent_call Hin]. }
  destruct (String.eqb cmd "discover").
  { destruct (discover source _) as [c|e];
      cbn [call bind emit print sys_exit fst app];
      intros Hin; destruct Hop as [-> | [-> | ->]];
      first [eexists; reflexivity|absent_call Hin]. }
  destruct (String.eqb cmd "read").
  - destruct (read source _ _ _) as [g|e]; cbn [call bind fst app].
    + pose proof (for_each_print_calls g op) as Hloop.
      destruct (for_each g print) as [tr o].
      assert (Htr : In (Call op) tr -> False).
      { intros H. cbn [fst] in Hloop. specialize (Hloop H).
        destruct Hop as [-> | [-> | ->]]; discriminate. }
      destruct o as [[]|code|e]; cbn [bind sys_exit fst app];
        rewrite ?app_nil_r; intros Hin;
        (destruct Hop as [-> | [-> | ->]];
         [exfalso|exfalso|eexists; reflexivity]);
        simpl in Hin;
        repeat (destruct Hin as [Hin|Hin]; [discriminate Hin|]);
        auto.
    + intros Hin; destruct Hop as [-> | [-> | ->]];
        first [eexists; reflexivity|absent_call Hin].
  - cbn [raise fst app].
    intros Hin; destruct Hop as [-> | [-> | ->]]; absent_call Hin.
Qed.

(** X17. The operation of a command is never called on a configuration
    that was not prepared: in every run in which [check], [discover] or
    [read] is called on the source, the call comes right after the
    configuration was read, transformed and written into the scratch
    directory, in this order, and nothing of the source ran before. *)
Theorem operation_after_config temp_dir source args op :
  op = CallCheck \/ op = CallDiscover \/ op = CallRead ->
  In (Call op) (fst (start temp_dir source args)) ->
  exists ns post,
    Argparse.parse_args args = Argparse.Parsed ns /\
    fst (start temp_dir source args)
    = [ParseArgs args; TempDirCreated temp_dir;
       Call (CallReadConfig (Argparse.config ns)); Call CallTransformConfig;
       Call (CallWriteConfig (os_path_join temp_dir "config.json"));
       Call op] ++ post.
Proof.
  intros Hop Hin.
  destruct (start_cases temp_dir source args)
    as [[_ H]|[[_ H]|[(_ & _ & H)|(ns & cmd & Hp & _ & _ & H)]]];
    rewrite H in Hin |- *; cbn [fst] in Hin |- *;
    try (simpl in Hin; intuition discriminate).
  destruct Hin as [Hin|[Hin|Hin]]; try discriminate.
  apply in_app_or in Hin as [Hin|[Hin|[]]]; [|discriminate].
  destruct (dispatch_operation source ns cmd temp_dir op Hop Hin)
    as [post Hpost].
  exists ns, (post ++ [TempDirRemoved temp_dir]). split; [exact Hp|].
  rewrite Hpost. reflexivity.
Qed.

(** A witness for X17. *)
Lemma operation_after_config_witness :
  exists ns post,
    Argparse.parse_args ["check"; "--config"; "c.json"] = Argparse.Parsed ns /\
    fst (start "/tmp/tmpq1" Samples.sample_source
               ["check"; "--config"; "c.json"])
    = [ParseArgs ["check"; "--config"; "c.json"];
       TempDirCreated "/tmp/tmpq1";
       Call (CallReadConfig (Argparse.config ns)); Call CallTransformConfig;
       Call (CallWriteConfig (os_path_join "/tmp/tmpq1" "config.json"));
       Call CallCheck] ++ post.
Proof.
  apply (operation_after_config
           "/tmp/tmpq1" Samples.sample_source
           ["check"; "--config"; "c.json"] CallCheck).
  - left. reflexivity.
  - simpl. auto 10.
Defined.


(** ** From the command line to the source *)

(** X12. A help flag in first position wins over everything that follows
    it: the run shows the help text and exits with code 0 without a
    scratch directory, a message or a call on the source. *)
Theorem help_first_wins temp_dir source h rest :
  h = "-h" \/ h = "--help" ->
  start temp_dir source (h :: rest)
  = ([ParseArgs (h :: rest); HelpShown], SystemExit 0).
Proof.
  intros Hh. apply start_help. now apply CommandLineFacts.parse_help_first.
Qed.

(** A witness for X12: help asked before an unknown subcommand. *)
Lemma help_first_wins_witness :
  start "/tmp/tmpq1" Samples.sample_source ["--help"; "sync"; "--now"]
  = ([ParseArgs ["--help"; "sync"; "--now"]; HelpShown], SystemExit 0).
Proof.
  apply (help_first_wins "/tmp/tmpq1" Samples.sample_source
           "--help" ["sync"; "--now"]).
  right. reflexivity.
Defined.

(** X13. The configuration path given to [check] or [discover] reaches
    [read_config] unchanged: as the argument after [--config] when it
    does not begin with a dash, as the text after [--config=] whatever it
    is, except that [--config=--] arrives as an empty list; and when
    [--config] is given twice the last value is the one that is read. *)
Theorem config_path_reaches_source temp_dir source c p q :
  In c ["check"; "discover"] ->
  Argparse.starts_with_dash p = false ->
  Argparse.starts_with_dash q = false ->
  (exists tail,
      fst (start temp_dir source [c; "--config"; p])
      = ParseArgs [c; "--config"; p] :: TempDirCreated temp_dir
          :: Call (CallReadConfig (Some (Argparse.VStr p))) :: tail) /\
  (exists tail,
      fst (start temp_dir source [c; "--config"; p; "--config"; q])
      = ParseArgs [c; "--config"; p; "--config"; q]
          :: TempDirCreated temp_dir
          :: Call (CallReadConfig (Some (Argparse.VStr q))) :: tail) /\
  (forall r,
      exists tail,
        fst (start temp_dir source [c; ("--config=" ++ r)%string])
        = ParseArgs [c; ("--config=" ++ r)%string]
            :: TempDirCreated temp_dir
            :: Call (CallReadConfig
                       (Some (if String.eqb r "--" then Argparse.VEmptyList
                              else Argparse.VStr r))) :: tail).
Proof.
  intros Hc Hp Hq.
  assert (Hrun : forall args v,
             Argparse.parse_args args
             = Argparse.Parsed {| Argparse.command := Some c;
                                  Argparse.config := Some v;
                                  Argparse.catalog := None;
                                  Argparse.state := None |} ->
             exists tail,
               fst (start temp_dir source args)
               = ParseArgs args :: TempDirCreated temp_dir
                   :: Call (CallReadConfig (Some v)) :: tail).
  { intros args v Hparse.
    rewrite (start_dispatches _ _ _ _ c Hparse eq_refl)
      by (simpl in Hc; intuition (subst; discriminate)).
    cbn [fst]. unfold dispatch.
    rewrite not_spec by (simpl in Hc |- *; intuition).
    cbn [Argparse.config].
    destruct (read_config source (Some v)) as [raw|e]; cbn [call bind].
    - match goal with
      | |- context [let '(tr', o) := ?x in _] => destruct x as [tr' o]
      end. cbn [fst app]. eauto.
    - cbn [fst app]. eauto. }
  split; [|split].
  - apply Hrun. now apply CommandLineFacts.parse_config.
  - apply Hrun. now apply CommandLineFacts.parse_config_twice.
  - intros r. apply Hrun. now apply CommandLineFacts.parse_config_equals.
Qed.

(** A witness for X13. *)
Lemma config_path_reaches_source_witness :
  exists tail,
    fst (start "/tmp/tmpq1" Samples.sample_source
               ["check"; "--config"; "a.json"])
    = ParseArgs ["check"; "--config"; "a.json"] :: TempDirCreated "/tmp/tmpq1"
        :: Call (CallReadConfig (Some (Argparse.VStr "a.json"))) :: tail.
Proof.
  apply (config_path_reaches_source
           "/tmp/tmpq1" Samples.sample_source "check" "a.json" "b.json").
  - simpl. auto.
  - reflexivity.
  - reflexivity.
Defined.

(** X14. For [read], the required flags may come in either order and
    [--state] is optional: the namespace carries the configuration and
    catalog paths of the command line whichever comes first, and the
    state path is [None] when no state was given. *)
Theorem read_flags_in_any_order p q r :
  Argparse.starts_with_dash p = false ->
  Argparse.starts_with_dash q = false ->
  Argparse.starts_with_dash r = false ->
  Argparse.parse_args ["read"; "--config"; p; "--catalog"; q]
  = Argparse.Parsed {| Argparse.command := Some "read";
                       Argparse.config := Some (Argparse.VStr p);
                       Argparse.catalog := Some (Argparse.VStr q);
                       Argparse.state := None |} /\
  Argparse.parse_args ["read"; "--catalog"; q; "--config"; p]
  = Argparse.parse_args ["read"; "--config"; p; "--catalog"; q] /\
  Argparse.parse_args ["read"; "--state"; r; "--config"; p; "--catalog"; q]
  = Argparse.Parsed {| Argparse.command := Some "read";
                       Argparse.config := Some (Argparse.VStr p);
                       Argparse.catalog := Some (Argparse.VStr q);
                       Argparse.state := Some (Argparse.VStr r) |}.
Proof.
  intros Hp Hq Hr. split; [|split].
  - now apply CommandLineFacts.parse_read.
  - rewrite CommandLineFacts.parse_read_swapped by assumption.
    symmetry. now apply CommandLineFacts.parse_read.
  - now apply CommandLineFacts.parse_read_state.
Qed.

(** A witness for X14. *)
Lemma read_flags_in_any_order_witness :
  Argparse.parse_args ["read"; "--catalog"; "k.json"; "--config"; "c.json"]
  = Argparse.parse_args ["read"; "--config"; "c.json"; "--catalog"; "k.json"].
Proof.
  apply (read_flags_in_any_order "c.json" "k.json" "s.json");
    reflexivity.
Defined.

End DispatcherFacts.

(* ===================================================================== *)
(** * Argument vectors turned away *)
(* ===================================================================== *)

Module UsageFacts.
Import Argparse Protocol Integration Entrypoint Vocabulary.




(** Vectors without a subcommand that begin with an option, and
    subcommands followed by a lone dash, by the separator, by the flag
    behind the separator or by an ambiguous abbreviation: all of them are
    among the rejected vectors, and all end in the usage error. *)
Example rejected_vectors :
  Forall (fun args =>
            rejected args /\
            start "/tmp/tmpq1" Samples.sample_source args
            = ([ParseArgs args; UsageShown], SystemExit 2))
         [["--verbose"]; ["--config=c.json"]; ["--"]; ["-x"; "spec"];
          ["fetch"]; ["check"]; ["check"; "-"]; ["check"; "--"];
          ["check"; "--"; "--config"; "c.json"];
          ["read"; "--c"; "c.json"]; ["read"; "--catalog"; "k.json"]].
Proof.
  assert (Hnot : forall a rest,
             existsb (String.eqb a) choices = false -> rejected (a :: rest)).
  { intros a rest H. apply NotASubcommand. intros Hin.
    assert (Ht : existsb (String.eqb a) choices = true).
    { apply existsb_exists. exists a. split; [exact Hin|].
      apply String.eqb_refl. }
    congruence. }
  repeat (apply Forall_cons; [split; [|reflexivity]|]);
    try apply Forall_nil;
    try (apply Hnot; reflexivity);
    try (apply (MissingRequiredFlag "check" check_parser DConfig);
         [reflexivity|simpl; auto|reflexivity]);
    try (apply (MissingRequiredFlag "read" read_parser DConfig);
         [reflexivity|simpl; auto|reflexivity]).
Qed.

(** The help request that argparse serves first, with or without a
    subcommand, is why the usage error is not the only outcome. *)
Example help_is_served_first :
  rejected ["--help"] /\ rejected ["check"; "-h"] /\
  start "/tmp/tmpq1" Samples.sample_source ["--help"]
  = ([ParseArgs ["--help"]; HelpShown], SystemExit 0) /\
  start "/tmp/tmpq1" Samples.sample_source ["check"; "-h"]
  = ([ParseArgs ["check"; "-h"]; HelpShown], SystemExit 0).
Proof.
  repeat split.
  - apply NotASubcommand. simpl. intuition discriminate.
  - apply (MissingRequiredFlag "check" check_parser DConfig);
      [reflexivity|simpl; auto|reflexivity].
Qed.

End UsageFacts.

(* ===================================================================== *)
(** * The paginating mock of the tests *)
(* ===================================================================== *)

Module MockFacts.
Import Streams.

Lemma firstn_add {A} (n m : nat) (l : list A) :
  firstn (n + m) l = firstn n l ++ firstn m (skipn n l).
Proof.
  revert l. induction n as [|n IH]; intros l; [reflexivity|].
  destruct l as [|a l]; simpl; [now rewrite firstn_nil|].
  now rewrite IH.
Qed.

(** X15. The callback answers a request for [count] records from
    [start_index] with as many records as are left from that index, at
    most [count]: none at all when the index is at or past the end, and a
    full page exactly when [count] more records exist. *)
Theorem page_length campaigns start_index count :
  length (campaigns_paginated_response_cb campaigns start_index count)
  = Nat.min count (length campaigns - start_index) /\
  (length campaigns <= start_index ->
   campaigns_paginated_response_cb campaigns start_index count = []) /\
  (length (campaigns_paginated_response_cb campaigns start_index count)
   = count
   <-> start_index + count <= length campaigns \/ count = 0).
Proof.
  unfold campaigns_paginated_response_cb.
  assert (Hlen : length (firstn count (skipn start_index campaigns))
                 = Nat.min count (length campaigns - start_index)).
  { now rewrite length_firstn, length_skipn. }
  split; [exact Hlen|]. split.
  - intros Hpast. apply length_zero_iff_nil. rewrite Hlen. lia.
  - rewrite Hlen. lia.
Qed.

(** X16. The pages the callback serves are the dataset cut at the
    requested indices: the record at position [i] of a page is the record
    at position [start_index + i] of the dataset, and two pages requested
    back to back are together the page of their joint size. *)
Theorem pages_are_slices campaigns start_index count :
  (forall i,
      nth_error (campaigns_paginated_response_cb campaigns start_index count)
                i
      = if i <? count then nth_error campaigns (start_index + i) else None) /\
  (forall count',
      campaigns_paginated_response_cb campaigns start_index count
      ++ campaigns_paginated_response_cb campaigns (start_index + count)
                                         count'
      = campaigns_paginated_response_cb campaigns start_index
                                        (count + count')).
Proof.
  unfold campaigns_paginated_response_cb. split.
  - intros i. rewrite nth_error_firstn.
    destruct (i <? count); [apply nth_error_skipn|reflexivity].
  - intros count'. rewrite firstn_add, skipn_skipn.
    now rewrite (Nat.add_comm count start_index).
Qed.

End MockFacts.
